(** * Agentic Mailing Orchestrator: campaign resolution and dispatch

    A shallow embedding of the template renderer, the filter evaluator and
    the recipient resolver of [src/app/page.tsx], and of the request
    validation, sender resolution and dispatch loop of
    [src/app/api/send/route.ts], followed by the properties the
    specification states about them.

    Strings are lists of code units in the range 0..255 ([ascii]); the
    white-space class and the case mapping below are the ECMAScript ones
    restricted to that range.  A row ([Record<string, string>]) is a plain
    object: the list of its own entries in [Object.entries] order, above
    [Object.prototype].  [row_read] is the property read [row[key]], which
    finds an own entry or else an inherited member; [row_get] is its own
    part, the read wherever the key is not the name of an inherited member
    the row lacks. *)

From Stdlib Require Import Ascii String DecimalString.
From stdpp Require Import base option list gmap strings.

Local Open Scope list_scope.

Set Warnings "-clear-no-such-hyp".

Abbreviation str := (list ascii).

(** String literals of the source, as code-unit lists. *)
Definition lit (s : string) : str := list_ascii_of_string s.

(** ** Characters and strings of the host language *)

Module JS.

(** [WhiteSpace] and [LineTerminator] code units below 256: TAB, LF, VT,
    FF, CR, SP and NBSP.  Both [\s] and [String.prototype.trim] use this
    class. *)
Definition isWhiteSpace (c : ascii) : bool :=
  let n := nat_of_ascii c in
  ((9 <=? n) && (n <=? 13)) || (n =? 32) || (n =? 160).

(** [toLowerCase] on one code unit: A-Z, and the Latin-1 capitals
    U+00C0..U+00DE except the multiplication sign U+00D7. *)
Definition toLowerChar (c : ascii) : ascii :=
  let n := nat_of_ascii c in
  if ((65 <=? n) && (n <=? 90))
     || ((192 <=? n) && (n <=? 222) && negb (n =? 215))
  then ascii_of_nat (n + 32) else c.

Definition toLowerCase (s : str) : str := map toLowerChar s.

Fixpoint trimStart (s : str) : str :=
  match s with
  | c :: s' => if isWhiteSpace c then trimStart s' else s
  | [] => []
  end.

Definition trimEnd (s : str) : str := reverse (trimStart (reverse s)).

Definition trim (s : str) : str := trimEnd (trimStart s).

(** [haystack.startsWith(needle)] *)
Fixpoint startsWith (haystack needle : str) : bool :=
  match needle, haystack with
  | [], _ => true
  | n :: needle', h :: haystack' =>
      if decide (h = n) then startsWith haystack' needle' else false
  | _ :: _, [] => false
  end.

(** [haystack.endsWith(needle)] *)
Definition endsWith (haystack needle : str) : bool :=
  startsWith (reverse haystack) (reverse needle).

(** [haystack.includes(needle)]: the first position at which [needle]
    occurs, searched from the left. *)
Fixpoint includes (haystack needle : str) : bool :=
  startsWith haystack needle ||
  match haystack with
  | [] => false
  | _ :: haystack' => includes haystack' needle
  end.

(** Truthiness of a string: only the empty string is falsy. *)
Definition truthy (s : str) : bool :=
  match s with [] => false | _ :: _ => true end.

(** [a || b] on possibly undefined strings. *)
Definition or_else (a : option str) (b : str) : str :=
  match a with
  | Some ((_ :: _) as s) => s
  | _ => b
  end.

End JS.

(** ** A backtracking matcher for the token pattern

    The pattern of [renderTemplate] is a sequence of literal characters and
    greedy repetitions of character classes.  [matchSeq] is the backtracking
    semantics of such a sequence: every repetition first takes the longest
    run its class allows and gives characters back one at a time while the
    rest of the pattern fails.  It returns the text matched by each item and
    the unread remainder. *)

Module Regex.

Inductive atom : Type :=
| Chr (c : ascii)               (* a literal character *)
| Star (p : ascii -> bool)      (* [p]*, greedy *)
| Plus (p : ascii -> bool).     (* [p]+, greedy *)

(** Length of the longest prefix of [s] inside the class [p]. *)
Fixpoint run (p : ascii -> bool) (s : str) : nat :=
  match s with
  | c :: s' => if p c then S (run p s') else 0
  | [] => 0
  end.

(** Try [k n], [k (n-1)], ... down to [k lo]; first success wins. *)
Fixpoint backtrack {A} (k : nat -> option A) (lo n : nat) : option A :=
  if n <? lo then None
  else match k n with
       | Some r => Some r
       | None => match n with
                 | 0 => None
                 | S n' => backtrack k lo n'
                 end
       end.

Definition push (seg : str) (r : list str * str) : list str * str :=
  (seg :: r.1, r.2).

Fixpoint matchSeq (items : list atom) (s : str) : option (list str * str) :=
  match items with
  | [] => Some ([], s)
  | Chr c :: items' =>
      match s with
      | c' :: s' =>
          if decide (c = c') then push [c] <$> matchSeq items' s' else None
      | [] => None
      end
  | Star p :: items' =>
      backtrack (fun n => push (take n s) <$> matchSeq items' (drop n s))
                0 (run p s)
  | Plus p :: items' =>
      backtrack (fun n => push (take n s) <$> matchSeq items' (drop n s))
                1 (run p s)
  end.

(** [String.prototype.replace] with a global pattern and a replacer
    function that receives the first capture group: the scan tries the
    pattern at every position from the left, copies a character where it
    fails and resumes after the match where it succeeds.  [exec] returns
    the capture and the text after the match; [fuel] bounds the number of
    scan steps. *)
Fixpoint replaceAll (exec : str -> option (str * str))
    (replacer : str -> str) (fuel : nat) (s : str) : str :=
  match fuel with
  | 0 => s
  | S fuel' =>
      match exec s with
      | Some (group, rest) =>
          replacer group ++ replaceAll exec replacer fuel' rest
      | None =>
          match s with
          | [] => []
          | c :: s' => c :: replaceAll exec replacer fuel' s'
          end
      end
  end.

End Regex.

(** ** [src/app/page.tsx] *)

(** [type DataRow = Record<string, string>], as its entries. *)
Definition DataRow := list (str * str).

(** The own property [key] of [row], if there is one.  The page reads the
    columns it has chosen among those of the table from the stored rows
    this way. *)
Fixpoint row_get (row : DataRow) (key : str) : option str :=
  match row with
  | [] => None
  | (k, v) :: row' => if decide (k = key) then Some v else row_get row' key
  end.

(** The names every plain object inherits from [Object.prototype]. *)
Definition protoMembers : list str :=
  [ lit "constructor"; lit "hasOwnProperty"; lit "isPrototypeOf";
    lit "propertyIsEnumerable"; lit "toLocaleString"; lit "toString";
    lit "valueOf"; lit "__proto__"; lit "__defineGetter__";
    lit "__defineSetter__"; lit "__lookupGetter__"; lit "__lookupSetter__" ].

(** What a property read on a row yields: the string of an own entry, or
    the member of [Object.prototype] of that name. *)
Inductive JSValue : Type :=
| VString (s : str)
| VMember (name : str).

(** [row[key]] on any key: the own entry first, then the prototype;
    [None] is [undefined]. *)
Definition row_read (row : DataRow) (key : str) : option JSValue :=
  match row_get row key with
  | Some v => Some (VString v)
  | None => if decide (key ∈ protoMembers) then Some (VMember key) else None
  end.

(** [String(member)], as V8 prints built-in functions: [__proto__] reads
    the prototype object itself, [constructor] the function [Object], any
    other name the method of that name. *)
Definition memberText (name : str) : str :=
  if decide (name = lit "__proto__") then lit "[object Object]"
  else if decide (name = lit "constructor") then
    lit "function Object() { [native code] }"
  else lit "function " ++ name ++ lit "() { [native code] }".

(** [String(v)] *)
Definition toText (v : JSValue) : str :=
  match v with
  | VString s => s
  | VMember name => memberText name
  end.

(** The outcome of a call that may throw. *)
Inductive JSError : Type := TypeError.

Inductive Completion (A : Type) : Type :=
| Returns (a : A)
| Throws (e : JSError).

Arguments Returns {A} a.
Arguments Throws {A} e.

(** [normalizeValue] *)
Definition normalizeValue (value : option str) : str :=
  match value with
  | None => []
  | Some v => JS.trim v
  end.

Definition notClose (c : ascii) : bool := negb (Ascii.eqb c "}"%char).

(** The pattern [{{\s*([^}]+)\s*}}]. *)
Definition tokenPattern : list Regex.atom :=
  [ Regex.Chr "{"%char; Regex.Chr "{"%char; Regex.Star JS.isWhiteSpace;
    Regex.Plus notClose; Regex.Star JS.isWhiteSpace;
    Regex.Chr "}"%char; Regex.Chr "}"%char ].

(** One attempt of the pattern at the start of [s]: the text of capture
    group 1 and the text after the match. *)
Definition tokenExec (s : str) : option (str * str) :=
  match Regex.matchSeq tokenPattern s with
  | Some (segs, rest) =>
      match segs !! 3 with
      | Some group => Some (group, rest)
      | None => None
      end
  | None => None
  end.

(** [new Map(Object.entries(row).map(([key, value]) =>
    [key.trim().toLowerCase(), value]))]: entries are inserted in order, a
    later entry replaces an earlier one with the same key. *)
Definition loweredMap (row : DataRow) : gmap str str :=
  foldl (fun m kv => <[JS.toLowerCase (JS.trim kv.1) := kv.2]> m) ∅ row.

(** The replacer callback of [renderTemplate]; [replace] turns what it
    returns into a string. *)
Definition replacer (row : DataRow) (rawKey : str) : str :=
  let key := JS.trim rawKey in
  match row_read row key with
  | Some direct => toText direct
  | None =>
      match loweredMap row !! JS.toLowerCase key with
      | Some fallback => fallback
      | None => []
      end
  end.

Definition renderTemplate (template : str) (row : DataRow) : str :=
  Regex.replaceAll tokenExec (replacer row) (length template) template.

(** [type AgentFilter]; [operator] is the string found at run time. *)
Record AgentFilter : Type := mkFilter {
  column : str;
  operator : str;
  value : str
}.

Record AgentDefinition : Type := mkAgent {
  agent_id : str;
  agent_name : str;
  subjectTemplate : str;
  bodyTemplate : str;
  filter : option AgentFilter
}.

Record UploadResult : Type := mkUpload {
  columns : list str;
  rows : list DataRow;
  fileName : str
}.

(** [applyFilter] as a call on any row and filter: the cell is read
    through the prototype, and [toLowerCase] is no property of what an
    inherited name yields. *)
Definition applyFilterCall (row : DataRow) (filter : option AgentFilter)
    : Completion bool :=
  match filter with
  | None => Returns true
  | Some f =>
      if negb (JS.truthy (column f)) || negb (JS.truthy (value f)) then
        Returns true
      else
        match default (VString []) (row_read row (column f)) with
        | VMember _ => Throws TypeError
        | VString targetValue =>
            let needle := JS.toLowerCase (value f) in
            let haystack := JS.toLowerCase targetValue in
            Returns
              (if decide (operator f = lit "equals") then
                 bool_decide (haystack = needle)
               else if decide (operator f = lit "contains") then
                 JS.includes haystack needle
               else if decide (operator f = lit "startsWith") then
                 JS.startsWith haystack needle
               else if decide (operator f = lit "endsWith") then
                 JS.endsWith haystack needle
               else true)
        end
  end.

(** The value [applyFilter] returns on the rows of the table, whose filter
    column is one of the table's own: the call above wherever it returns. *)
Definition applyFilter (row : DataRow) (filter : option AgentFilter) : bool :=
  match filter with
  | None => true
  | Some f =>
      if negb (JS.truthy (column f)) || negb (JS.truthy (value f)) then true
      else
        let targetValue := default [] (row_get row (column f)) in
        let needle := JS.toLowerCase (value f) in
        let haystack := JS.toLowerCase targetValue in
        if decide (operator f = lit "equals") then
          bool_decide (haystack = needle)
        else if decide (operator f = lit "contains") then
          JS.includes haystack needle
        else if decide (operator f = lit "startsWith") then
          JS.startsWith haystack needle
        else if decide (operator f = lit "endsWith") then
          JS.endsWith haystack needle
        else true
  end.

(** The [useMemo] body of [totalRecipients]: one [Set] filled by the two
    nested [forEach] loops. *)
Definition addRowEmail (emailColumn : str) (agent : AgentDefinition)
    (emailSet : gset str) (row : DataRow) : gset str :=
  if negb (applyFilter row (filter agent)) then emailSet
  else
    let email := normalizeValue (row_get row emailColumn) in
    if JS.truthy email then {[ email ]} ∪ emailSet else emailSet.

Definition totalRecipients (uploadResult : option UploadResult)
    (emailColumn : str) (agents : list AgentDefinition) : nat :=
  match uploadResult with
  | None => 0
  | Some upload =>
      if negb (JS.truthy emailColumn) then 0
      else
        size (foldl (fun emailSet agent =>
                       foldl (addRowEmail emailColumn agent) emailSet
                             (rows upload))
                    (∅ : gset str) agents)
  end.

(** The request body sent to [/api/send], which is also the shape the
    route parses.  A field that is [undefined] is left out by
    [JSON.stringify], so optional fields are options. *)
Record Recipient : Type := mkRecipient {
  to : str;
  subject : str;
  body : str;
  variables : option DataRow;
  name : option str
}.

Record PreparedAgent : Type := mkPrepared {
  id : str;
  pname : str;
  recipients : list Recipient
}.

Record FromField : Type := mkFrom {
  email : option str;
  fname : option str
}.

Record Payload : Type := mkPayload {
  agents : list PreparedAgent;
  from : option FromField
}.

(** The callback of the inner [.map] of [handleSend]; [None] is the
    [null] that the following [.filter] removes. *)
Definition prepareRecipient (emailColumn nameColumn : str)
    (agent : AgentDefinition) (row : DataRow) : option Recipient :=
  let email := normalizeValue (row_get row emailColumn) in
  if negb (JS.truthy email) then None
  else Some {| to := email;
               subject := renderTemplate (subjectTemplate agent) row;
               body := renderTemplate (bodyTemplate agent) row;
               variables := Some row;
               name := if JS.truthy nameColumn then row_get row nameColumn
                       else None |}.

Definition resolveRecipients (emailColumn nameColumn : str)
    (rows : list DataRow) (agent : AgentDefinition) : list Recipient :=
  omap (prepareRecipient emailColumn nameColumn agent)
       (List.filter (fun row => applyFilter row (filter agent)) rows).

Definition preparedAgents (emailColumn nameColumn : str)
    (rows : list DataRow) (agents : list AgentDefinition)
    : list PreparedAgent :=
  List.filter (fun agent => negb (length (recipients agent) =? 0))
    (map (fun agent =>
            {| id := agent_id agent;
               pname := agent_name agent;
               recipients :=
                 resolveRecipients emailColumn nameColumn rows agent |})
         agents).

(** What [handleSend] does before it awaits the response. *)
Inductive SendAction : Type :=
| Ignore
| ShowError (message : str)
| Post (payload : Payload).

Definition handleSend (uploadResult : option UploadResult)
    (emailColumn nameColumn fromEmail fromName : str)
    (agents : list AgentDefinition) : SendAction :=
  match uploadResult with
  | None => Ignore
  | Some upload =>
      if negb (JS.truthy emailColumn) then
        ShowError (lit "Please select which column contains email addresses.")
      else
        let prepared :=
          preparedAgents emailColumn nameColumn (rows upload) agents in
        if length prepared =? 0 then
          ShowError (lit "No recipients were identified. Adjust your filters or verify the email column.")
        else
          Post {| agents := prepared;
                  from := Some {| email := Some fromEmail;
                                  fname := Some fromName |} |}
  end.

(** ** [src/app/api/send/route.ts] *)

(** The violations [safeParse] reports for [emailRequestSchema]: where in
    the payload, and which check failed. *)
Inductive PathSeg : Type :=
| Key (k : string)
| Index (i : nat).

Inductive IssueCode : Type :=
| too_small          (* [.min(1)] on an array or a string *)
| invalid_string.    (* [.email()] *)

Record ZodIssue : Type := mkIssue {
  code : IssueCode;
  path : list PathSeg
}.

(** [NextResponse.json(body, { status })] *)
Record Response : Type := mkResponse {
  status : nat;
  ok : bool;
  message : str;
  issues : option (list ZodIssue)
}.

(** The argument of [transport.sendMail]. *)
Record MailOptions : Type := mkMail {
  mail_from : str;
  mail_to : str;
  mail_subject : str;
  mail_text : str;
  mail_html : str;
  mail_headers : list (str * str)
}.

(** [process.env], the variables the route reads. *)
Record Env : Type := mkEnv {
  SMTP_HOST : option str;
  SMTP_USER : option str;
  SMTP_FROM : option str;
  SMTP_FROM_NAME : option str;
  MAIL_FROM : option str;
  MAIL_FROM_NAME : option str
}.

(** The outcome of awaiting [transport.sendMail]: it resolves or throws. *)
Inductive SendOutcome : Type :=
| Sent
| Threw.

(** [s.replace(/c/g, by)] for a one-character pattern. *)
Definition replaceChar (c : ascii) (by_ : str) (s : str) : str :=
  flat_map (fun x => if decide (x = c) then by_ else [x]) s.

Definition dquote : ascii := ascii_of_nat 34.
Definition newline : ascii := ascii_of_nat 10.

Definition buildHtmlBody (plainText : str) : str :=
  let escaped :=
    replaceChar ">"%char (lit "&gt;")
      (replaceChar "<"%char (lit "&lt;")
         (replaceChar "&"%char (lit "&amp;") plainText)) in
  lit "<div style=" ++ [dquote]
    ++ lit "font-family: 'Segoe UI', Arial, sans-serif; font-size: 16px; line-height: 1.6; color: #0f172a;"
    ++ [dquote] ++ lit ">" ++ [newline]
    ++ replaceChar newline (lit "<br/>") escaped ++ [newline]
    ++ lit "</div>".

Definition defaultEmail (env : Env) : str :=
  JS.or_else (MAIL_FROM env)
    (JS.or_else (SMTP_FROM env) (JS.or_else (SMTP_USER env) [])).

Definition defaultName (env : Env) : str :=
  JS.or_else (MAIL_FROM_NAME env)
    (JS.or_else (SMTP_FROM_NAME env) (JS.or_else (MAIL_FROM env) [])).

(** [resolveFromHeader]; [None] is [null]. *)
Definition resolveFromHeader (env : Env) (from : FromField) : option str :=
  let email := JS.or_else (email from) (defaultEmail env) in
  let name := JS.or_else (fname from) (defaultName env) in
  if negb (JS.truthy email) then None
  else Some (if JS.truthy name then name ++ lit " <" ++ email ++ lit ">"
             else email).

(** The [dryRun] flag of [createTransport]. *)
Definition dryRun (env : Env) : bool :=
  negb (JS.truthy (default [] (SMTP_HOST env))).

(** [`${n}`] for a count. *)
Definition showNat (n : nat) : str :=
  lit (DecimalString.NilZero.string_of_uint (Nat.to_uint n)).

Definition invalidPayload (iss : list ZodIssue) : Response :=
  {| status := 422; ok := false; message := lit "Invalid payload.";
     issues := Some iss |}.

Definition malformedJson : Response :=
  {| status := 400; ok := false; message := lit "Malformed JSON payload.";
     issues := None |}.

Definition missingSender : Response :=
  {| status := 400; ok := false;
     message := lit "Missing sender identity. Supply from.email in the request or configure MAIL_FROM (and optional MAIL_FROM_NAME) environment variables.";
     issues := None |}.

Definition dispatchFailed (recipientTo : str) : Response :=
  {| status := 500; ok := false;
     message := lit "Failed to dispatch email to " ++ recipientTo
                ++ lit ". Check server logs for details.";
     issues := None |}.

Definition dispatched (dry : bool) (total agentCount : nat) : Response :=
  {| status := 200; ok := true;
     message :=
       if dry then
         lit "Dry run: generated " ++ showNat total
           ++ lit " email payloads across " ++ showNat agentCount
           ++ lit " agents. Configure SMTP_HOST to send live emails."
       else
         lit "Dispatched " ++ showNat total ++ lit " emails across "
           ++ showNat agentCount ++ lit " agents.";
     issues := None |}.

(** The message built for one recipient of one agent. *)
Definition mailFor (fromHeader : str) (agent : PreparedAgent)
    (recipient : Recipient) : MailOptions :=
  {| mail_from := fromHeader;
     mail_to := match name recipient with
                | Some ((_ :: _) as n) => n ++ lit " <" ++ to recipient ++ lit ">"
                | _ => to recipient
                end;
     mail_subject := subject recipient;
     mail_text := body recipient;
     mail_html := buildHtmlBody (body recipient);
     mail_headers := if JS.truthy (pname agent)
                     then [(lit "X-Agent-Name", pname agent)] else [] |}.

Section Route.

(** The address check of the validation library's [.email()], and the
    transport with its state: both live outside the repository.  A payload
    is taken at the shape the schema describes, so only the schema's value
    checks remain.  What the route writes to the console (the dry-run trace
    and the error record) is left out: it does not reach the response or
    the transport. *)
Variable isEmail : str -> bool.
Context {T : Type}.
Variable sendMail : T -> MailOptions -> T * SendOutcome.

(** [emailRequestSchema], checked depth-first in the order of its shape. *)
Definition checkRecipient (at_ : list PathSeg) (r : Recipient)
    : list ZodIssue :=
  (if isEmail (to r) then []
   else [ {| code := invalid_string; path := at_ ++ [Key "to"] |} ])
  ++ (if length (subject r) <? 1
      then [ {| code := too_small; path := at_ ++ [Key "subject"] |} ]
      else [])
  ++ (if length (body r) <? 1
      then [ {| code := too_small; path := at_ ++ [Key "body"] |} ]
      else []).

Definition checkAgent (at_ : list PathSeg) (a : PreparedAgent)
    : list ZodIssue :=
  let here := at_ ++ [Key "recipients"] in
  (if length (recipients a) <? 1
   then [ {| code := too_small; path := here |} ] else [])
  ++ concat (imap (fun i r => checkRecipient (here ++ [Index i]) r)
                  (recipients a)).

Definition checkFrom (f : option FromField) : list ZodIssue :=
  match f with
  | Some {| email := Some e |} =>
      if isEmail e then []
      else [ {| code := invalid_string; path := [Key "from"; Key "email"] |} ]
  | _ => []
  end.

Definition safeParse (json : Payload) : list ZodIssue :=
  (if length (agents json) <? 1
   then [ {| code := too_small; path := [Key "agents"] |} ] else [])
  ++ concat (imap (fun i a => checkAgent [Key "agents"; Index i] a)
                  (agents json))
  ++ checkFrom (from json).

(** The calls made on the transport so far, and its state. *)
Definition Wire : Type := list MailOptions * T.

(** The inner [for] loop over one agent's recipients.  [inl] carries the
    response of the [return] inside the [catch]; [inr] the final value of
    [sent]. *)
Fixpoint sendRecipients (fromHeader : str) (agent : PreparedAgent)
    (rs : list Recipient) (sent : nat) (w : Wire)
    : (Response + nat) * Wire :=
  match rs with
  | [] => (inr sent, w)
  | recipient :: rs' =>
      let m := mailFor fromHeader agent recipient in
      match sendMail w.2 m with
      | (t', Sent) =>
          sendRecipients fromHeader agent rs' (sent + 1) (w.1 ++ [m], t')
      | (t', Threw) =>
          (inl (dispatchFailed (to recipient)), (w.1 ++ [m], t'))
      end
  end.

(** The outer [for] loop; [summary] collects [{ agentId, sent }]. *)
Fixpoint sendAgents (fromHeader : str) (ags : list PreparedAgent)
    (summary : list (str * nat)) (w : Wire)
    : (Response + list (str * nat)) * Wire :=
  match ags with
  | [] => (inr summary, w)
  | agent :: ags' =>
      match sendRecipients fromHeader agent (recipients agent) 0 w with
      | (inl response, w') => (inl response, w')
      | (inr sent, w') =>
          sendAgents fromHeader ags' (summary ++ [(id agent, sent)]) w'
      end
  end.

(** [POST]: [json] is [None] when the body is not JSON (or is a falsy
    JSON value); [t] is the state of the transport when it is created. *)
Definition POST (env : Env) (json : option Payload) (t : T)
    : Response * Wire :=
  match json with
  | None => (malformedJson, ([], t))
  | Some data =>
      match safeParse data with
      | (_ :: _) as iss => (invalidPayload iss, ([], t))
      | [] =>
          match resolveFromHeader env
                  (default {| email := None; fname := None |} (from data))
          with
          | None | Some [] => (missingSender, ([], t))
          | Some fromHeader =>
              match sendAgents fromHeader (agents data) [] ([], t) with
              | (inl response, w) => (response, w)
              | (inr summary, w) =>
                  let total :=
                    foldl (fun acc item => acc + item.2) 0 summary in
                  (dispatched (dryRun env) total (length summary), w)
              end
          end
      end
  end.

End Route.

(** ** [src/app/page.tsx], the handlers of the wizard

    The handlers change the component state; each is given here as the
    function from the state it reads to the state it sets.  Identifiers
    come from [uuid()], which is an input. *)

Definition DEFAULT_SUBJECT : str := lit "Hello {{Name}}".

Definition DEFAULT_BODY : str :=
  lit "Hi {{Name}}," ++ [newline; newline]
    ++ lit "I hope this message finds you well. We wanted to reach out about {{Topic}}."
    ++ [newline; newline] ++ lit "Thanks," ++ [newline]
    ++ lit "{{Account Manager}}".

(** [columnSet.add(key)] on a [Set], kept in insertion order as
    [Array.from] reads it. *)
Definition setAdd (columnSet : list str) (key : str) : list str :=
  if decide (key ∈ columnSet) then columnSet else columnSet ++ [key].

(** The number a key denotes when it is an array index: a decimal numeral
    without leading zero, below [2^32 - 1]. *)
Definition digit (c : ascii) : option N :=
  let n := N_of_ascii c in
  if ((48 <=? n) && (n <=? 57))%N then Some (n - 48)%N else None.

Definition decimal (s : str) : option N :=
  foldl (fun acc c =>
           match acc, digit c with
           | Some a, Some d => Some (10 * a + d)%N
           | _, _ => None
           end)
        (Some 0%N) s.

Definition arrayIndex (key : str) : option N :=
  match key with
  | [] => None
  | c :: key' =>
      if decide (c = "0"%char) then
        match key' with [] => Some 0%N | _ :: _ => None end
      else
        match decimal key with
        | Some n => if (n <? 4294967295)%N then Some n else None
        | None => None
        end
  end.

(** The value of an own property replaced, its place kept. *)
Fixpoint objUpdate (mapped : DataRow) (column v : str) : DataRow :=
  match mapped with
  | [] => []
  | (k, old) :: mapped' =>
      if decide (k = column) then (k, v) :: mapped'
      else (k, old) :: objUpdate mapped' column v
  end.

(** A new array-index property: listed among the index keys, in ascending
    order, before every other key. *)
Fixpoint objInsertIndex (n : N) (column v : str) (mapped : DataRow) : DataRow :=
  match mapped with
  | [] => [(column, v)]
  | (k, old) :: mapped' =>
      match arrayIndex k with
      | Some m =>
          if (n <? m)%N then (column, v) :: mapped
          else (k, old) :: objInsertIndex n column v mapped'
      | None => (column, v) :: mapped
      end
  end.

(** [mapped[column] = v] with a string [v], on an object created by [{}]
    and given by its entries.  [__proto__] is the accessor of
    [Object.prototype], whose setter ignores a string; every other
    inherited name is a writable data property, so the assignment creates
    an own one.  A new key is listed last, unless it is an array index. *)
Definition objAssign (mapped : DataRow) (column v : str) : DataRow :=
  if decide (column = lit "__proto__") then mapped
  else
    match row_get mapped column with
    | Some _ => objUpdate mapped column v
    | None =>
        match arrayIndex column with
        | Some n => objInsertIndex n column v mapped
        | None => mapped ++ [(column, v)]
        end
    end.

(** The columns of a sheet: the trimmed keys of all its rows, in the order
    in which they first occur. *)
Definition sheetColumns (json : list DataRow) : list str :=
  foldl (fun columnSet row =>
           foldl (fun columnSet kv => setAdd columnSet (JS.trim kv.1))
                 columnSet row)
        [] json.

(** The callback of [json.map] in [handleUpload].  A row of [json] is the
    plain object the spreadsheet library returned, given by its enumerable
    entries, whose values are strings; what the library may attach to it
    beyond these is not part of the model.  [normalizeValue] receives what
    the two reads yield and turns it into a string. *)
Definition sheetRow (columns : list str) (row : DataRow) : DataRow :=
  foldl (fun mapped column =>
           let raw := match row_read row column with
                      | Some v => Some v
                      | None => row_read row (JS.trim column)
                      end in
           objAssign mapped column (normalizeValue (toText <$> raw)))
        [] columns.

(** [columns.find((column) => column.toLowerCase().includes(word)) ?? ""] *)
Definition findColumn (word : str) (columns : list str) : str :=
  default [] (List.find (fun column => JS.includes (JS.toLowerCase column) word)
                        columns).

(** What [handleUpload] sets once the spreadsheet library has turned the
    first sheet into [json]: either the error banner, or the table, the
    two detected columns and the first agent. *)
Inductive UploadOutcome : Type :=
| UploadFailed (message : str)
| Uploaded (uploadResult : UploadResult) (emailColumn nameColumn : str)
           (agents : list AgentDefinition).

Definition handleUpload (uuid fileName : str) (json : list DataRow)
    : UploadOutcome :=
  if length json =? 0 then
    UploadFailed (lit "No data detected in the first sheet.")
  else
    let columns := sheetColumns json in
    let rows := map (sheetRow columns) json in
    Uploaded {| columns := columns; rows := rows; fileName := fileName |}
             (findColumn (lit "email") columns)
             (findColumn (lit "name") columns)
             [ {| agent_id := uuid;
                  agent_name := lit "General Outreach";
                  subjectTemplate := DEFAULT_SUBJECT;
                  bodyTemplate := DEFAULT_BODY;
                  filter := None |} ].

(** [Partial<AgentDefinition>]: a field is absent or carries a value; the
    value of [filter] may itself be [undefined]. *)
Record AgentPatch : Type := mkPatch {
  patch_id : option str;
  patch_name : option str;
  patch_subjectTemplate : option str;
  patch_bodyTemplate : option str;
  patch_filter : option (option AgentFilter)
}.

(** [{ ...agent, ...patch }] *)
Definition spread (agent : AgentDefinition) (patch : AgentPatch)
    : AgentDefinition :=
  {| agent_id := default (agent_id agent) (patch_id patch);
     agent_name := default (agent_name agent) (patch_name patch);
     subjectTemplate :=
       default (subjectTemplate agent) (patch_subjectTemplate patch);
     bodyTemplate := default (bodyTemplate agent) (patch_bodyTemplate patch);
     filter := default (filter agent) (patch_filter patch) |}.

Definition handleAgentChange (id : str) (patch : AgentPatch)
    (prev : list AgentDefinition) : list AgentDefinition :=
  map (fun agent => if decide (agent_id agent = id) then spread agent patch
                    else agent)
      prev.

Definition handleCreateAgent (uuid : str) (prev : list AgentDefinition)
    : list AgentDefinition :=
  prev ++ [ {| agent_id := uuid;
               agent_name := lit "Agent " ++ showNat (length prev + 1);
               subjectTemplate := DEFAULT_SUBJECT;
               bodyTemplate := DEFAULT_BODY;
               filter := None |} ].

(** [agents] is the list the handler closed over, [prev] the one the state
    update receives. *)
Definition handleDuplicateAgent (uuid id : str)
    (agents prev : list AgentDefinition) : list AgentDefinition :=
  match List.find (fun item => bool_decide (agent_id item = id)) agents with
  | None => prev
  | Some agent =>
      prev ++ [ {| agent_id := uuid;
                   agent_name := agent_name agent ++ lit " Copy";
                   subjectTemplate := subjectTemplate agent;
                   bodyTemplate := bodyTemplate agent;
                   filter := filter agent |} ]
  end.

Definition handleRemoveAgent (id : str) (prev : list AgentDefinition)
    : list AgentDefinition :=
  List.filter (fun agent => negb (bool_decide (agent_id agent = id))) prev.

(** The preview of an agent card: the rows its filter matches, and the
    subject and body shown for the first of them. *)
Definition matchingRows (rows : list DataRow) (agent : AgentDefinition)
    : list DataRow :=
  List.filter (fun row => applyFilter row (filter agent)) rows.

Definition previewOf (rows : list DataRow) (agent : AgentDefinition)
    : str * str :=
  match head (matchingRows rows agent) with
  | Some previewRow =>
      (renderTemplate (subjectTemplate agent) previewRow,
       renderTemplate (bodyTemplate agent) previewRow)
  | None =>
      (lit "No recipients match the current filters.",
       lit "Adjust your filters or templates to preview the email.")
  end.

(** [disabled={sending || !totalRecipients}] on the send button. *)
Definition sendDisabled (sending : bool) (total : nat) : bool :=
  sending || (total =? 0).

(** * Vocabulary of the specification

    The notions the properties are stated with: what a pattern and a token
    are, what it means for the transport to accept a run of messages, and
    the sets the distinct count is compared with. *)

Definition allSpace (w : str) : Prop := Forall (fun c => JS.isWhiteSpace c = true) w.

Module RegexSpec.
Import Regex.

(** What a sequence of atoms denotes: one piece of text per atom. *)
Inductive Segs : list atom -> list str -> Prop :=
| Segs_nil : Segs [] []
| Segs_chr c items segs :
    Segs items segs -> Segs (Chr c :: items) ([c] :: segs)
| Segs_star p items seg segs :
    Forall (fun c => p c = true) seg ->
    Segs items segs -> Segs (Star p :: items) (seg :: segs)
| Segs_plus p items seg segs :
    seg <> [] -> Forall (fun c => p c = true) seg ->
    Segs items segs -> Segs (Plus p :: items) (seg :: segs).

(** The result of the scan when the fuel is the length of the input. *)
Definition replaced (exec : str -> option (str * str)) (replacer : str -> str)
    (s : str) : str :=
  replaceAll exec replacer (length s) s.

End RegexSpec.

(** A token as the specification describes it: two opening braces, a key
    text that is not empty and holds no closing brace, two closing braces. *)
Definition token (body : str) : str := lit "{{" ++ body ++ lit "}}".

Definition isKeyText (body : str) : Prop :=
  body <> [] /\ "}"%char ∉ body.

Definition starts_with_token (s : str) : Prop :=
  exists body post, isKeyText body /\ s = token body ++ post.

(** Some token starts somewhere in [s]. *)
Definition has_token (s : str) : Prop :=
  exists pre rest, s = pre ++ rest /\ starts_with_token rest.

(** Some token starts inside [pre] when [pre] is followed by [rest]. *)
Definition token_starts_in (pre rest : str) : Prop :=
  exists p1 p2, pre = p1 ++ p2 /\ p2 <> [] /\ starts_with_token (p2 ++ rest).

(** The value a row holds under a lower-cased key, ignoring case and
    surrounding white space of the column names: the last such column. *)
Definition ci_lookup (row : DataRow) (lowered : str) : option str :=
  snd <$> last (List.filter
                  (fun kv => bool_decide (JS.toLowerCase (JS.trim kv.1) = lowered))
                  row).

(** Executable checks for the two conditions on tokens. *)
Fixpoint scanFinds (s : str) : bool :=
  match tokenExec s with
  | Some _ => true
  | None => match s with
            | [] => false
            | _ :: s' => scanFinds s'
            end
  end.

Fixpoint scanFindsIn (pre rest : str) : bool :=
  match pre with
  | [] => false
  | _ :: pre' =>
      match tokenExec (pre ++ rest) with
      | Some _ => true
      | None => scanFindsIn pre' rest
      end
  end.

Definition knownOperator (op : str) : Prop :=
  op = lit "equals" \/ op = lit "contains"
  \/ op = lit "startsWith" \/ op = lit "endsWith".

(** The addresses of a recipient list, and of all prepared agents, as
    sets. *)
Definition emailsOf (rs : list Recipient) : gset str := list_to_set (to <$> rs).

Definition distinctEmails (prepared : list PreparedAgent) : gset str :=
  ⋃ ((fun pa => emailsOf (recipients pa)) <$> prepared).

(** The agent-recipient pairs of a request in dispatch order, and the
    messages built for them. *)
Definition pairs (ags : list PreparedAgent) : list (PreparedAgent * Recipient) :=
  flat_map (fun a => map (pair a) (recipients a)) ags.

Definition mails (fromHeader : str) (ps : list (PreparedAgent * Recipient))
    : list MailOptions :=
  map (fun p => mailFor fromHeader p.1 p.2) ps.

(** An address check and two transports to run the route on. *)
Fixpoint afterAt (s : str) : option str :=
  match s with
  | [] => None
  | c :: s' => if decide (c = "@"%char) then Some s' else afterAt s'
  end.

Definition sampleIsEmail (s : str) : bool :=
  match s, afterAt s with
  | c :: _, Some domain =>
      negb (bool_decide (c = "@"%char)) && JS.includes domain (lit ".")
  | _, _ => false
  end.

Definition alwaysSends (t : nat) (m : MailOptions) : nat * SendOutcome :=
  (S t, Sent).

Definition failsOn (bad : str) (t : nat) (m : MailOptions) : nat * SendOutcome :=
  (S t, if decide (mail_to m = bad) then Threw else Sent).

Section DispatchSpec.

Context {T : Type}.
Variable sendMail : T -> MailOptions -> T * SendOutcome.

(** Every message of [ms] is accepted, one after the other, from state [t]. *)
Fixpoint allSent (ms : list MailOptions) (t : T) : option T :=
  match ms with
  | [] => Some t
  | m :: ms' =>
      match sendMail t m with
      | (t', Sent) => allSent ms' t'
      | (_, Threw) => None
      end
  end.

(** The two nested loops as one loop over the pairs: the address of the
    first recipient whose send threw, if any. *)
Fixpoint flatSend (fromHeader : str) (ps : list (PreparedAgent * Recipient))
    (w : Wire) : option str * Wire :=
  match ps with
  | [] => (None, w)
  | p :: ps' =>
      let m := mailFor fromHeader p.1 p.2 in
      match sendMail w.2 m with
      | (t', Sent) => flatSend fromHeader ps' (w.1 ++ [m], t')
      | (t', Threw) => (Some (to p.2), (w.1 ++ [m], t'))
      end
  end.

End DispatchSpec.


(** A text neither starts nor ends with white space. *)
Definition trimmed (s : str) : Prop :=
  (forall c, head s = Some c -> JS.isWhiteSpace c = false)
  /\ (forall c, last s = Some c -> JS.isWhiteSpace c = false).

(** The filter [f] with another operator. *)
Definition withOperator (op : string) (f : AgentFilter) : AgentFilter :=
  {| column := column f; operator := lit op; value := value f |}.

(** The agent without its filter. *)
Definition withoutFilter (agent : AgentDefinition) : AgentDefinition :=
  {| agent_id := agent_id agent; agent_name := agent_name agent;
     subjectTemplate := subjectTemplate agent;
     bodyTemplate := bodyTemplate agent; filter := None |}.

(** What [applyFilter] compares with the filter value: the lower-cased
    cell, the empty string where the read yields nothing, and no string
    where it yields an inherited member. *)
Definition loweredCell (row : DataRow) (column : str) : option str :=
  match row_read row column with
  | None => Some []
  | Some (VString cell) => Some (JS.toLowerCase cell)
  | Some (VMember _) => None
  end.

(** The normalized cells of the email column, row by row. *)
Definition rowEmails (emailColumn : str) (rows : list DataRow) : list str :=
  (fun row => normalizeValue (row_get row emailColumn)) <$> rows.

(** A recipient that passes the three checks of the schema. *)
Definition validRecipient (isEmail : str -> bool) (r : Recipient) : Prop :=
  isEmail (to r) = true /\ subject r <> [] /\ body r <> [].

(** The cell [handleUpload] stores for [column]: the normalized value the
    raw row yields under that name. *)
Definition sheetCell (row : DataRow) (column : str) : str :=
  normalizeValue (toText <$> row_read row column).

(** A column name that is neither an array index nor [__proto__]. *)
Definition plainKey (column : str) : Prop :=
  arrayIndex column = None /\ column <> lit "__proto__".

(** The columns a stored row can own: all but [__proto__]. *)
Definition ownColumns (columns : list str) : list str :=
  List.filter (fun column => negb (bool_decide (column = lit "__proto__")))
              columns.

(** The distinct non-empty addresses of a table. *)
Definition tableEmails (emailColumn : str) (rows : list DataRow) : gset str :=
  list_to_set (List.filter JS.truthy (rowEmails emailColumn rows)).

(** The addresses an agent list reaches in a table. *)
Definition reached (emailColumn nameColumn : str) (rows : list DataRow)
    (agents : list AgentDefinition) : gset str :=
  ⋃ ((fun agent => emailsOf (resolveRecipients emailColumn nameColumn rows agent))
       <$> agents).

(** A patch that touches nothing but the name. *)
Definition renameOnly (patch : AgentPatch) : Prop :=
  patch_id patch = None /\ patch_subjectTemplate patch = None
  /\ patch_bodyTemplate patch = None /\ patch_filter patch = None.

(** What one character of a plain-text body becomes in the HTML body. *)
Definition escapeChar (c : ascii) : str :=
  if decide (c = "&"%char) then lit "&amp;"
  else if decide (c = "<"%char) then lit "&lt;"
  else if decide (c = ">"%char) then lit "&gt;"
  else if decide (c = newline) then lit "<br/>"
  else [c].

(** The two ends of the container [buildHtmlBody] wraps the body in. *)
Definition htmlOpen : str :=
  lit "<div style=" ++ [dquote]
    ++ lit "font-family: 'Segoe UI', Arial, sans-serif; font-size: 16px; line-height: 1.6; color: #0f172a;"
    ++ [dquote] ++ lit ">" ++ [newline].

Definition htmlClose : str := [newline] ++ lit "</div>".

(** An environment variable or request field that is missing or empty. *)
Definition unset (o : option str) : Prop := o = None \/ o = Some [].

(** * Properties *)

(** ** Strings *)

Section StringFacts.

Implicit Types (s t w : str) (c : ascii).

Lemma trimStart_space_app w s : allSpace w -> JS.trimStart (w ++ s) = JS.trimStart s.
Proof.
  induction 1 as [|c w Hc _ IH]; simpl; [done|]. by rewrite Hc.
Qed.

Lemma trimStart_all_space w : allSpace w -> JS.trimStart w = [].
Proof.
  intros Hw. rewrite <- (app_nil_r w). by rewrite trimStart_space_app.
Qed.

Lemma trimEnd_app_space s w : allSpace w -> JS.trimEnd (s ++ w) = JS.trimEnd s.
Proof.
  intros Hw. unfold JS.trimEnd. rewrite reverse_app.
  rewrite trimStart_space_app; [done|]. by apply Forall_reverse.
Qed.

(** White space around a text does not change what [trim] returns. *)
Lemma trim_padded w1 s w2 :
  allSpace w1 -> allSpace w2 -> JS.trim (w1 ++ s ++ w2) = JS.trim s.
Proof.
  intros H1 H2. unfold JS.trim. rewrite trimStart_space_app by done.
  induction s as [|c s IH]; simpl.
  - by rewrite trimStart_all_space.
  - destruct (JS.isWhiteSpace c); [done|].
    by rewrite app_comm_cons, trimEnd_app_space.
Qed.

Lemma startsWith_prefix s t : JS.startsWith s t = true <-> t `prefix_of` s.
Proof.
  revert s. induction t as [|c t IH]; intros [|d s]; simpl.
  - split; [intros _; apply prefix_nil | done].
  - split; [intros _; apply prefix_nil | done].
  - split; [done | intros H%prefix_nil_inv; done].
  - destruct (decide (d = c)) as [->|Hne].
    + rewrite IH. split; [apply prefix_cons | apply prefix_cons_inv_2].
    + split; [done | intros H%prefix_cons_inv_1; congruence].
Qed.

Lemma endsWith_suffix s t : JS.endsWith s t = true <-> t `suffix_of` s.
Proof.
  unfold JS.endsWith. rewrite startsWith_prefix.
  symmetry. apply suffix_prefix_reverse.
Qed.

(** [includes] finds exactly the contiguous occurrences. *)
Lemma includes_infix s t :
  JS.includes s t = true <-> exists pre post, s = pre ++ t ++ post.
Proof.
  induction s as [|c s IH]; cbn [JS.includes].
  - rewrite orb_false_r, startsWith_prefix. split.
    + intros [k Hk]. by exists [], k.
    + intros (pre & post & H). symmetry in H.
      apply app_eq_nil in H as [-> H]. apply app_eq_nil in H as [-> ->].
      apply prefix_nil.
  - rewrite orb_true_iff, startsWith_prefix, IH. split.
    + intros [[k Hk] | (pre & post & ->)].
      * by exists [], k.
      * by exists (c :: pre), post.
    + intros ([|d pre] & post & H); simpl in H.
      * left. by exists post.
      * right. injection H as _ ->. by exists pre, post.
Qed.

End StringFacts.

(** ** The matcher *)

Module RegexFacts.
Import Regex RegexSpec.

Lemma run_take p s n :
  n <= run p s -> Forall (fun c => p c = true) (take n s).
Proof.
  revert n. induction s as [|c s IH]; intros [|n] Hn; simpl in *;
    try by constructor.
  destruct (p c) eqn:Hc; [|lia]. constructor; [done|]. apply IH. lia.
Qed.

Lemma run_app_ge p seg s :
  Forall (fun c => p c = true) seg -> length seg <= run p (seg ++ s).
Proof.
  induction 1 as [|c seg Hc _ IH]; simpl; [lia|]. rewrite Hc. lia.
Qed.

Lemma backtrack_Some {A} (k : nat -> option A) lo n r :
  backtrack k lo n = Some r -> exists m, lo <= m <= n /\ k m = Some r.
Proof.
  induction n as [|n IH]; simpl.
  - destruct (0 <? lo) eqn:Hlo; [done|]. apply Nat.ltb_ge in Hlo.
    destruct (k 0) eqn:Hk; [|done]. intros [= <-]. exists 0. split; [lia|done].
  - destruct (S n <? lo) eqn:Hlo; [done|]. apply Nat.ltb_ge in Hlo.
    destruct (k (S n)) eqn:Hk.
    + intros [= <-]. exists (S n). split; [lia|done].
    + intros (m & Hm & Hr)%IH. exists m. split; [lia|done].
Qed.

Lemma backtrack_None {A} (k : nat -> option A) lo n m :
  backtrack k lo n = None -> lo <= m <= n -> k m = None.
Proof.
  induction n as [|n IH]; simpl.
  - destruct (0 <? lo) eqn:Hlo; [apply Nat.ltb_lt in Hlo; lia|].
    destruct (k 0) eqn:Hk; [done|]. intros _ Hm.
    by replace m with 0 by lia.
  - destruct (S n <? lo) eqn:Hlo; [apply Nat.ltb_lt in Hlo; lia|].
    destruct (k (S n)) eqn:Hk; [done|]. intros Hb Hm.
    destruct (decide (m = S n)) as [->|]; [done|]. apply IH; [done|lia].
Qed.

(** Whatever the matcher returns is a reading of the pattern, and the
    pieces followed by the remainder are the input. *)
Lemma matchSeq_sound items : forall s segs rest,
  matchSeq items s = Some (segs, rest) ->
  Segs items segs /\ s = concat segs ++ rest.
Proof.
  induction items as [|[c|p|p] items IH]; intros s segs rest; simpl.
  - intros [= <- <-]. split; [constructor | done].
  - destruct s as [|c' s]; [done|].
    destruct (decide (c = c')) as [<-|]; [|done].
    destruct (matchSeq items s) as [[segs' rest']|] eqn:Hm; [|done].
    intros [= <- <-]. apply IH in Hm as [Hs ->].
    split; [by constructor | done].
  - intros (n & Hn & Hk)%backtrack_Some.
    destruct (matchSeq items (drop n s)) as [[segs' rest']|] eqn:Hm; [|done].
    injection Hk as <- <-. apply IH in Hm as [Hs Heq]. split.
    + constructor; [|done]. apply run_take. lia.
    + simpl. rewrite <- app_assoc, <- Heq. by rewrite take_drop.
  - intros (n & Hn & Hk)%backtrack_Some.
    destruct (matchSeq items (drop n s)) as [[segs' rest']|] eqn:Hm; [|done].
    injection Hk as <- <-. apply IH in Hm as [Hs Heq]. split.
    + constructor; [| |done].
      * intros Hnil. apply (f_equal length) in Hnil.
        rewrite length_take in Hnil. simpl in Hnil.
        assert (n <= length s).
        { destruct Hn as [_ Hn]. clear -Hn. revert n Hn.
          induction s as [|c s IHs]; simpl; intros n Hn; [lia|].
          destruct (p c); [|lia]. destruct n; [lia|].
          specialize (IHs n). lia. }
        lia.
      * apply run_take. lia.
    + simpl. rewrite <- app_assoc, <- Heq. by rewrite take_drop.
Qed.

(** If the input has a reading at all, the matcher finds one. *)
Lemma matchSeq_complete items : forall segs rest,
  Segs items segs -> is_Some (matchSeq items (concat segs ++ rest)).
Proof.
  intros segs rest Hs. revert rest.
  induction Hs as [|c items segs _ IH|p items seg segs Hp _ IH
                  |p items seg segs Hne Hp _ IH]; intros rest; simpl.
  - done.
  - rewrite decide_True by done.
    destruct (IH rest) as [[segs' rest'] ->]. done.
  - rewrite <- app_assoc.
    destruct (backtrack _ 0 _) eqn:Hb; [done|].
    eapply (backtrack_None _ _ _ (length seg)) in Hb.
    + cbv beta in Hb. rewrite drop_app_length in Hb.
      destruct (IH rest) as [[segs' rest'] Hm]. by rewrite Hm in Hb.
    + split; [lia|]. by apply run_app_ge.
  - rewrite <- app_assoc.
    destruct (backtrack _ 1 _) eqn:Hb; [done|].
    eapply (backtrack_None _ _ _ (length seg)) in Hb.
    + cbv beta in Hb. rewrite drop_app_length in Hb.
      destruct (IH rest) as [[segs' rest'] Hm]. by rewrite Hm in Hb.
    + split; [destruct seg; simpl; [done|lia] | by apply run_app_ge].
Qed.

Section Replace.
Variable exec : str -> option (str * str).
Variable replacer : str -> str.
Hypothesis exec_shrinks : forall s group rest,
  exec s = Some (group, rest) -> length rest < length s.

(** Any fuel at least the length of the input gives the same result. *)
Lemma replaceAll_fuel : forall f1 f2 s,
  length s <= f1 -> length s <= f2 ->
  replaceAll exec replacer f1 s = replaceAll exec replacer f2 s.
Proof.
  induction f1 as [|f1 IH]; intros f2 s H1 H2.
  - destruct s; [|simpl in H1; lia]. destruct f2; simpl; [done|].
    destruct (exec []) as [[g r]|] eqn:He; [|done].
    apply exec_shrinks in He. simpl in He. lia.
  - destruct f2 as [|f2].
    + destruct s; [|simpl in H2; lia]. simpl.
      destruct (exec []) as [[g r]|] eqn:He; [|done].
      apply exec_shrinks in He. simpl in He. lia.
    + simpl. destruct (exec s) as [[g r]|] eqn:He.
      * apply exec_shrinks in He. f_equal. apply IH; lia.
      * destruct s as [|c s]; [done|]. simpl in *. f_equal. apply IH; lia.
Qed.

Lemma replaced_nil : replaced exec replacer [] = [].
Proof. done. Qed.

Lemma replaced_match s group rest :
  exec s = Some (group, rest) ->
  replaced exec replacer s = replacer group ++ replaced exec replacer rest.
Proof.
  intros He. unfold replaced. pose proof (exec_shrinks _ _ _ He) as Hlt.
  destruct (length s) as [|n] eqn:Hn; [lia|]. simpl. rewrite He.
  f_equal. apply replaceAll_fuel; lia.
Qed.

Lemma replaced_copy c s :
  exec (c :: s) = None ->
  replaced exec replacer (c :: s) = c :: replaced exec replacer s.
Proof. intros He. unfold replaced. simpl. by rewrite He. Qed.
End Replace.

End RegexFacts.

(** ** Tokens of a template *)

Section TokenFacts.
Import Regex RegexSpec RegexFacts.

Lemma notClose_spec c : notClose c = true <-> c <> "}"%char.
Proof.
  unfold notClose. rewrite negb_true_iff. destruct (Ascii.eqb_spec c "}"%char);
    split; congruence.
Qed.

Lemma allSpace_no_close w : allSpace w -> "}"%char ∉ w.
Proof.
  intros Hw Hin. unfold allSpace in Hw. rewrite Forall_forall in Hw.
  specialize (Hw _ Hin). discriminate Hw.
Qed.

Lemma Forall_notClose g :
  Forall (fun c => notClose c = true) g <-> "}"%char ∉ g.
Proof.
  rewrite Forall_forall. split.
  - intros H Hin. apply H in Hin. by apply notClose_spec in Hin.
  - intros H c Hin. apply notClose_spec. intros ->. done.
Qed.

(** The key text of a token ends at the first closing brace. *)
Lemma key_text_unique (b1 b2 r1 r2 : str) :
  "}"%char ∉ b1 -> "}"%char ∉ b2 ->
  b1 ++ "}"%char :: r1 = b2 ++ "}"%char :: r2 -> b1 = b2 /\ r1 = r2.
Proof.
  revert b2. induction b1 as [|c b1 IH]; intros [|d b2] H1 H2 Heq;
    simpl in Heq.
  - by injection Heq as ->.
  - injection Heq as <- _. exfalso. apply H2. by left.
  - injection Heq as -> _. exfalso. apply H1. by left.
  - injection Heq as -> Heq. apply not_elem_of_cons in H1 as [_ H1].
    apply not_elem_of_cons in H2 as [_ H2].
    destruct (IH _ H1 H2 Heq) as [-> ->]. done.
Qed.

Lemma tokenPattern_Segs segs :
  Segs tokenPattern segs ->
  exists w1 g w2,
    segs = [ ["{"%char]; ["{"%char]; w1; g; w2; ["}"%char]; ["}"%char] ]
    /\ allSpace w1 /\ allSpace w2 /\ isKeyText g.
Proof.
  unfold tokenPattern. intros H.
  repeat match goal with
         | H : Segs (_ :: _) _ |- _ => inversion H; subst; clear H
         | H : Segs [] _ |- _ => inversion H; subst; clear H
         end.
  eexists _, _, _. split; [reflexivity|].
  repeat split; try done. by apply Forall_notClose.
Qed.

(** A successful attempt has read a token whose key text is the capture
    padded with white space. *)
Lemma tokenExec_sound s g rest :
  tokenExec s = Some (g, rest) ->
  exists w1 w2, allSpace w1 /\ allSpace w2 /\ isKeyText g
                /\ s = token (w1 ++ g ++ w2) ++ rest.
Proof.
  unfold tokenExec.
  destruct (matchSeq tokenPattern s) as [[segs rest']|] eqn:Hm; [|done].
  apply matchSeq_sound in Hm as [Hs ->].
  apply tokenPattern_Segs in Hs as (w1 & g' & w2 & -> & H1 & H2 & Hg).
  simpl. intros [= <- <-]. exists w1, w2. repeat split; try apply Hg; try done.
  unfold token. simpl. by rewrite <- !app_assoc.
Qed.

Lemma padded_key_text w1 g w2 :
  allSpace w1 -> allSpace w2 -> isKeyText g -> isKeyText (w1 ++ g ++ w2).
Proof.
  intros H1 H2 [Hne Hg]. split.
  - destruct w1, g; simpl; congruence.
  - rewrite !elem_of_app.
    intros [H|[H|H]];
      [by apply (allSpace_no_close w1) | done
      | by apply (allSpace_no_close w2)].
Qed.

(** At a token the attempt succeeds, resumes right after the token and
    captures its key up to white space at both ends. *)
Lemma tokenExec_token body post :
  isKeyText body ->
  exists g, tokenExec (token body ++ post) = Some (g, post)
            /\ JS.trim g = JS.trim body.
Proof.
  intros [Hne Hb].
  assert (Segs tokenPattern
            [ ["{"%char]; ["{"%char]; []; body; []; ["}"%char]; ["}"%char] ])
    as Hs.
  { unfold tokenPattern. repeat constructor; try done.
    by apply Forall_notClose. }
  destruct (matchSeq_complete _ _ post Hs) as [[segs rest] Hm].
  assert (concat [ ["{"%char]; ["{"%char]; []; body; []; ["}"%char]; ["}"%char] ]
            ++ post = token body ++ post) as Hshape.
  { unfold token. by cbn. }
  rewrite Hshape in Hm. unfold tokenExec. rewrite Hm.
  apply matchSeq_sound in Hm as [Hs' Heq].
  apply tokenPattern_Segs in Hs' as (w1 & g & w2 & -> & H1 & H2 & Hg).
  cbn in Heq |- *. exists g.
  pose proof (padded_key_text _ _ _ H1 H2 Hg) as [_ Hpad].
  injection Heq as Heq.
  assert (body ++ "}"%char :: ("}"%char :: post)
          = (w1 ++ g ++ w2) ++ "}"%char :: ("}"%char :: rest)) as Heq'.
  { rewrite <- !app_assoc in Heq. by rewrite <- !app_assoc. }
  apply key_text_unique in Heq' as [-> [= ->]]; [|done|done].
  split; [done|]. symmetry. by apply trim_padded.
Qed.

Lemma tokenExec_None s : tokenExec s = None -> ~ starts_with_token s.
Proof.
  intros Hn (body & post & Hb & ->).
  destruct (tokenExec_token body post Hb) as (g & Hg & _). congruence.
Qed.

Lemma tokenExec_Some s g rest :
  tokenExec s = Some (g, rest) -> starts_with_token s.
Proof.
  intros (w1 & w2 & H1 & H2 & Hg & ->)%tokenExec_sound.
  eexists _, _. split; [|done]. by apply padded_key_text.
Qed.

Lemma tokenExec_shrinks s g rest :
  tokenExec s = Some (g, rest) -> length rest < length s.
Proof.
  intros (w1 & w2 & _ & _ & _ & ->)%tokenExec_sound.
  unfold token. rewrite !length_app. simpl. lia.
Qed.

End TokenFacts.

(** ** The template renderer *)

Section RenderFacts.
Import RegexSpec RegexFacts.

Implicit Types (row : DataRow) (template s : str).

Lemma renderTemplate_nil row : renderTemplate [] row = [].
Proof. done. Qed.

Lemma renderTemplate_match row s g rest :
  tokenExec s = Some (g, rest) ->
  renderTemplate s row = replacer row g ++ renderTemplate rest row.
Proof. apply (replaced_match _ _ tokenExec_shrinks). Qed.

Lemma renderTemplate_copy row c s :
  tokenExec (c :: s) = None ->
  renderTemplate (c :: s) row = c :: renderTemplate s row.
Proof. apply replaced_copy. Qed.

Lemma ci_lookup_snoc row k v lowered :
  ci_lookup (row ++ [(k, v)]) lowered
  = if decide (JS.toLowerCase (JS.trim k) = lowered) then Some v
    else ci_lookup row lowered.
Proof.
  unfold ci_lookup. rewrite List.filter_app. simpl.
  case_bool_decide; case_decide; try done.
  - by rewrite last_snoc.
  - by rewrite app_nil_r.
Qed.

(** The [Map] of lower-cased column names answers with the last column
    whose trimmed, lower-cased name is the one asked for. *)
Lemma loweredMap_lookup row lowered :
  loweredMap row !! lowered = ci_lookup row lowered.
Proof.
  induction row as [|[k v] row IH] using rev_ind.
  - done.
  - unfold loweredMap. rewrite foldl_app. simpl. fold (loweredMap row).
    rewrite ci_lookup_snoc, lookup_insert. by case_decide.
Qed.

Lemma starts_in_head c pre rest :
  ~ token_starts_in (c :: pre) rest ->
  tokenExec (c :: pre ++ rest) = None /\ ~ token_starts_in pre rest.
Proof.
  intros Hno. split.
  - destruct (tokenExec (c :: pre ++ rest)) as [[g r]|] eqn:He; [|done].
    exfalso. apply Hno. exists [], (c :: pre). repeat split; [done|].
    by eapply tokenExec_Some.
  - intros (p1 & p2 & -> & Hne & Hs). apply Hno.
    exists (c :: p1), p2. by repeat split.
Qed.

Lemma no_token_head c s :
  ~ has_token (c :: s) -> tokenExec (c :: s) = None /\ ~ has_token s.
Proof.
  intros Hno. split.
  - destruct (tokenExec (c :: s)) as [[g r]|] eqn:He; [|done].
    exfalso. apply Hno. exists [], (c :: s). split; [done|].
    by eapply tokenExec_Some.
  - intros (pre & rest & -> & Hs). apply Hno. by exists (c :: pre), rest.
Qed.

Lemma scanFinds_false s : scanFinds s = false -> ~ has_token s.
Proof.
  intros Hscan (pre & rest & -> & Hs). induction pre as [|c pre IH].
  - assert (tokenExec rest = None) as He.
    { destruct rest as [|c rest]; [done|]. cbn [scanFinds app] in Hscan.
      by destruct (tokenExec (c :: rest)). }
    by apply tokenExec_None in He.
  - apply IH. cbn [scanFinds app] in Hscan.
    by destruct (tokenExec (c :: pre ++ rest)).
Qed.

Lemma scanFindsIn_false pre rest :
  scanFindsIn pre rest = false -> ~ token_starts_in pre rest.
Proof.
  intros Hscan (p1 & p2 & -> & Hne & Hs). induction p1 as [|c p1 IH].
  - destruct p2 as [|c p2]; [done|]. cbn [scanFindsIn app] in Hscan.
    destruct (tokenExec (c :: p2 ++ rest)) eqn:He; [done|].
    by apply tokenExec_None in He.
  - apply IH. cbn [scanFindsIn app] in Hscan.
    by destruct (tokenExec (c :: (p1 ++ p2) ++ rest)).
Qed.

End RenderFacts.

(** C3. Every token the scan reaches is replaced, and the call returns:
    by the row value under the trimmed key when the row has that column;
    otherwise, when the trimmed key is the name of a member of
    [Object.prototype], by the text of that member; otherwise by the value
    of the column whose trimmed, lower-cased name is the lower-cased key;
    otherwise by the empty string.  The text before the token is copied
    and the text after it is rendered in the same way. *)
Theorem C3_token_resolution (row : DataRow) (pre body post : str) :
  isKeyText body ->
  ~ token_starts_in pre (token body ++ post) ->
  exists v,
    renderTemplate (pre ++ token body ++ post) row
    = pre ++ v ++ renderTemplate post row
    /\ match row_get row (JS.trim body) with
       | Some direct => v = direct
       | None =>
           if decide (JS.trim body ∈ protoMembers) then
             v = memberText (JS.trim body)
           else
             match ci_lookup row (JS.toLowerCase (JS.trim body)) with
             | Some fallback => v = fallback
             | None => v = []
             end
       end.
Proof.
  intros Hbody. induction pre as [|c pre IH]; intros Hpre.
  - destruct (tokenExec_token body post Hbody) as (g & Hexec & Htrim).
    exists (replacer row g). split.
    + by apply renderTemplate_match.
    + unfold replacer, row_read. rewrite Htrim, loweredMap_lookup.
      destruct (row_get row (JS.trim body)); [done|].
      case_decide; [done|]. by destruct (ci_lookup row _).
  - apply starts_in_head in Hpre as [Hexec Hpre].
    destruct (IH Hpre) as (v & Heq & Hv). exists v. split; [|done].
    rewrite <- !app_comm_cons, renderTemplate_copy by done. by rewrite Heq.
Qed.

Lemma C3_token_resolution_witness :
  renderTemplate (lit "Hello {{constructor}}, {{ first name }}{{Missing}}!")
                 [(lit "First Name", lit "Ana")]
  = lit "Hello function Object() { [native code] }, Ana!".
Proof.
  destruct (C3_token_resolution [(lit "First Name", lit "Ana")]
              (lit "Hello ") (lit "constructor")
              (lit ", {{ first name }}{{Missing}}!"))
    as (v & Heq & Hv).
  - split; [done | apply (bool_decide_unpack _); vm_compute; exact I].
  - apply scanFindsIn_false. vm_compute. reflexivity.
  - vm_compute in Hv. subst v.
    destruct (C3_token_resolution [(lit "First Name", lit "Ana")]
                (lit ", ") (lit " first name ") (lit "{{Missing}}!"))
      as (v & Heq' & Hv).
    + split; [done | apply (bool_decide_unpack _); vm_compute; exact I].
    + apply scanFindsIn_false. vm_compute. reflexivity.
    + vm_compute in Hv. subst v.
      change (lit "Hello {{constructor}}, {{ first name }}{{Missing}}!")
        with (lit "Hello " ++ token (lit "constructor")
                ++ lit ", {{ first name }}{{Missing}}!").
      rewrite Heq.
      change (lit ", {{ first name }}{{Missing}}!")
        with (lit ", " ++ token (lit " first name ") ++ lit "{{Missing}}!").
      rewrite Heq'. vm_compute. reflexivity.
Defined.

(** C4. Rendering is a function of the template and the row; a template in
    which no token starts is returned as it is; and when no token starts in
    the output of a rendering, rendering that output again against the same
    row returns it as it is. *)
Theorem C4_idempotent_rendering (template : str) (row : DataRow) :
  (forall out1 out2,
      out1 = renderTemplate template row ->
      out2 = renderTemplate template row -> out1 = out2)
  /\ (~ has_token template -> renderTemplate template row = template)
  /\ (~ has_token (renderTemplate template row) ->
      renderTemplate (renderTemplate template row) row
      = renderTemplate template row).
Proof.
  assert (forall s, ~ has_token s -> renderTemplate s row = s) as Hfix.
  { induction s as [|c s IH]; intros Hno; [done|].
    apply no_token_head in Hno as [Hexec Hno].
    rewrite renderTemplate_copy by done. by rewrite IH. }
  split; [congruence|]. split; [apply Hfix|]. apply Hfix.
Qed.

Lemma C4_idempotent_rendering_witness :
  renderTemplate (lit "Dear customer, {curly} braces } are {{}} fine")
                 [(lit "Name", lit "Ana")]
  = lit "Dear customer, {curly} braces } are {{}} fine"
  /\ renderTemplate
       (renderTemplate (lit "Hello {{Name}}") [(lit "Name", lit "Ana")])
       [(lit "Name", lit "Ana")]
     = renderTemplate (lit "Hello {{Name}}") [(lit "Name", lit "Ana")].
Proof.
  split.
  - apply (C4_idempotent_rendering
             (lit "Dear customer, {curly} braces } are {{}} fine")
             [(lit "Name", lit "Ana")]).
    apply scanFinds_false. vm_compute. reflexivity.
  - apply (C4_idempotent_rendering (lit "Hello {{Name}}")
             [(lit "Name", lit "Ana")]).
    apply scanFinds_false. vm_compute. reflexivity.
Defined.

(** ** The filter evaluator *)

Section FilterCall.

Implicit Types (row : DataRow) (f : AgentFilter).



(** Where the read of the filter column does not reach the prototype, the
    call returns the value above. *)
Lemma applyFilterCall_own row f :
  (row_get row (column f) = None -> column f ∉ protoMembers) ->
  applyFilterCall row (Some f) = Returns (applyFilter row (Some f)).
Proof.
  intros Hown. unfold applyFilterCall, applyFilter, row_read.
  destruct (negb _ || negb _); [done|].
  destruct (row_get row (column f)) as [cell|]; [done|].
  by rewrite decide_False by auto.
Qed.

(** Where it does, the call throws. *)
Lemma applyFilterCall_inherited row f :
  column f <> [] -> value f <> [] ->
  row_get row (column f) = None -> column f ∈ protoMembers ->
  applyFilterCall row (Some f) = Throws TypeError.
Proof.
  intros Hc Hv Hget Hin. unfold applyFilterCall, row_read.
  destruct (column f) eqn:Ec; [done|]. destruct (value f) eqn:Ev; [done|].
  cbn [JS.truthy negb orb]. by rewrite Hget, decide_True.
Qed.

Lemma applyFilterCall_returns row filter b :
  applyFilterCall row filter = Returns b -> applyFilter row filter = b.
Proof.
  destruct filter as [f|]; [|by intros [= <-]].
  destruct (decide (column f = [])) as [Hc|Hc].
  { unfold applyFilterCall, applyFilter. rewrite Hc. by intros [= <-]. }
  destruct (decide (value f = [])) as [Hv|Hv].
  { unfold applyFilterCall, applyFilter. rewrite Hv, orb_true_r.
    by intros [= <-]. }
  destruct (row_get row (column f)) as [cell|] eqn:Hget.
  - rewrite applyFilterCall_own by (by rewrite Hget). by intros [= <-].
  - destruct (decide (column f ∈ protoMembers)) as [Hin|Hin].
    + by rewrite applyFilterCall_inherited.
    + rewrite applyFilterCall_own by done. by intros [= <-].
Qed.

End FilterCall.



(** ** The recipient resolver *)

Section ResolverFacts.

Implicit Types (emailColumn nameColumn : str) (agent : AgentDefinition).

Lemma truthy_nonempty (s : str) : JS.truthy s = true <-> s <> [].
Proof. by destruct s. Qed.

Lemma prepareRecipient_Some emailColumn nameColumn agent row r :
  prepareRecipient emailColumn nameColumn agent row = Some r ->
  to r = normalizeValue (row_get row emailColumn) /\ to r <> [].
Proof.
  unfold prepareRecipient.
  destruct (JS.truthy (normalizeValue (row_get row emailColumn))) eqn:Ht;
    [|done].
  intros [= <-]. simpl. split; [done|]. by apply truthy_nonempty.
Qed.

Lemma prepareRecipient_None emailColumn nameColumn agent row :
  normalizeValue (row_get row emailColumn) = [] ->
  prepareRecipient emailColumn nameColumn agent row = None.
Proof. unfold prepareRecipient. by intros ->. Qed.

Lemma elem_of_preparedAgents emailColumn nameColumn rows agents pa :
  pa ∈ preparedAgents emailColumn nameColumn rows agents ->
  exists agent, agent ∈ agents
    /\ recipients pa = resolveRecipients emailColumn nameColumn rows agent
    /\ recipients pa <> [].
Proof.
  unfold preparedAgents. rewrite list_elem_of_In, filter_In.
  rewrite <- list_elem_of_In, list_elem_of_fmap.
  intros [(agent & -> & Hin) Hlen]. exists agent. simpl in *.
  repeat split; [done|]. by destruct (resolveRecipients _ _ _ _).
Qed.

End ResolverFacts.

(** C6. No resolved recipient has an empty [to], for any agent, filter,
    table and email column, and a row whose email cell is missing or empty
    after trimming contributes nothing to the resolved list. *)
Theorem C6_empty_email_exclusion (emailColumn nameColumn : str)
    (rows : list DataRow) (agents : list AgentDefinition)
    (agent : AgentDefinition) :
  Forall (fun r => to r <> [])
         (resolveRecipients emailColumn nameColumn rows agent)
  /\ (forall pa, pa ∈ preparedAgents emailColumn nameColumn rows agents ->
                 Forall (fun r => to r <> []) (recipients pa))
  /\ (forall rows1 row rows2,
        rows = rows1 ++ row :: rows2 ->
        JS.trim (default [] (row_get row emailColumn)) = [] ->
        resolveRecipients emailColumn nameColumn rows agent
        = resolveRecipients emailColumn nameColumn (rows1 ++ rows2) agent).
Proof.
  assert (forall a, Forall (fun r => to r <> [])
                      (resolveRecipients emailColumn nameColumn rows a)) as Hall.
  { intros a. apply Forall_forall. intros r. unfold resolveRecipients.
    rewrite list_elem_of_omap. intros (row & _ & Hr).
    by apply prepareRecipient_Some in Hr as [_ Hr]. }
  split; [apply Hall|]. split.
  - intros pa (a & _ & -> & _)%elem_of_preparedAgents. apply Hall.
  - intros rows1 row rows2 -> Hempty. unfold resolveRecipients.
    rewrite !List.filter_app. simpl.
    destruct (applyFilter row (filter agent)); [|done].
    rewrite !omap_app. simpl.
    rewrite prepareRecipient_None; [done|].
    unfold normalizeValue. by destruct (row_get row emailColumn).
Qed.

Lemma C6_empty_email_exclusion_witness :
  resolveRecipients (lit "Email") (lit "Name")
    [ [(lit "Name", lit "Ana"); (lit "Email", lit "ana@example.com")];
      [(lit "Name", lit "Bob"); (lit "Email", lit "   ")];
      [(lit "Name", lit "Cy")] ]
    (mkAgent (lit "a1") (lit "General") (lit "Hello {{Name}}") (lit "Hi") None)
  = resolveRecipients (lit "Email") (lit "Name")
      [ [(lit "Name", lit "Ana"); (lit "Email", lit "ana@example.com")];
        [(lit "Name", lit "Cy")] ]
      (mkAgent (lit "a1") (lit "General") (lit "Hello {{Name}}") (lit "Hi") None).
Proof.
  destruct (C6_empty_email_exclusion (lit "Email") (lit "Name")
              [ [(lit "Name", lit "Ana"); (lit "Email", lit "ana@example.com")];
                [(lit "Name", lit "Bob"); (lit "Email", lit "   ")];
                [(lit "Name", lit "Cy")] ]
              []
              (mkAgent (lit "a1") (lit "General") (lit "Hello {{Name}}")
                       (lit "Hi") None))
    as (_ & _ & Hskip).
  apply (Hskip
           [ [(lit "Name", lit "Ana"); (lit "Email", lit "ana@example.com")] ]
           [(lit "Name", lit "Bob"); (lit "Email", lit "   ")]
           [ [(lit "Name", lit "Cy")] ]).
  - reflexivity.
  - vm_compute. reflexivity.
Defined.

(** ** Distinct recipients *)

Section CountFacts.

Implicit Types (emailColumn nameColumn : str) (agent : AgentDefinition).

Lemma foldl_addRowEmail emailColumn nameColumn agent rows :
  forall emailSet : gset str,
    foldl (addRowEmail emailColumn agent) emailSet rows
    = emailSet ∪ emailsOf (resolveRecipients emailColumn nameColumn rows agent).
Proof.
  unfold emailsOf, resolveRecipients.
  induction rows as [|row rows IH]; intros emailSet; simpl.
  - set_solver.
  - rewrite IH. unfold addRowEmail.
    destruct (applyFilter row (filter agent)); simpl; [|done].
    unfold prepareRecipient at 2.
    destruct (JS.truthy (normalizeValue (row_get row emailColumn))); simpl;
      set_solver.
Qed.

Lemma foldl_agents emailColumn nameColumn rows agents :
  forall emailSet : gset str,
    foldl (fun emailSet agent =>
             foldl (addRowEmail emailColumn agent) emailSet rows)
          emailSet agents
    = emailSet ∪ distinctEmails (preparedAgents emailColumn nameColumn rows agents).
Proof.
  unfold distinctEmails, preparedAgents.
  induction agents as [|agent agents IH]; intros emailSet; simpl.
  - set_solver.
  - rewrite IH, (foldl_addRowEmail _ nameColumn).
    destruct (resolveRecipients emailColumn nameColumn rows agent) eqn:Hr;
      simpl; set_solver.
Qed.

End CountFacts.

(** C10. The distinct count tells addresses apart that differ only in
    letter case: a table of two such rows and an agent whose filter (in yet
    another letter case) matches both gives the count 2, while a template
    key in another letter case still resolves. *)
Theorem C10_count_is_case_sensitive :
  exists (row1 row2 : DataRow) (agent : AgentDefinition) (emailColumn : str),
    let e1 := JS.trim (default [] (row_get row1 emailColumn)) in
    let e2 := JS.trim (default [] (row_get row2 emailColumn)) in
    e1 <> e2 /\ JS.toLowerCase e1 = JS.toLowerCase e2
    /\ applyFilter row1 (filter agent) = true
    /\ applyFilter row2 (filter agent) = true
    /\ renderTemplate (subjectTemplate agent) row1 = lit "Hello Ana"
    /\ totalRecipients (Some (mkUpload [lit "Name"; lit "Email"; lit "Team"]
                                       [row1; row2] (lit "contacts.csv")))
                       emailColumn [agent] = 2.
Proof.
  exists [(lit "Name", lit "Ana"); (lit "Email", lit "Ana@Example.com");
          (lit "Team", lit "Sales")],
         [(lit "Name", lit "Ana"); (lit "Email", lit "ana@example.com ");
          (lit "Team", lit "SALES")],
         (mkAgent (lit "a1") (lit "General") (lit "Hello {{name}}") (lit "Hi")
                  (Some (mkFilter (lit "Team") (lit "equals") (lit "sales")))),
         (lit "Email").
  vm_compute. repeat split; (done || discriminate).
Qed.

(** ** The dispatch loop *)

Section DispatchFacts.

Variable isEmail : str -> bool.
Context {T : Type}.
Variable sendMail : T -> MailOptions -> T * SendOutcome.

Lemma flatSend_app h ps1 ps2 : forall w,
  flatSend sendMail h (ps1 ++ ps2) w
  = match flatSend sendMail h ps1 w with
    | (None, w') => flatSend sendMail h ps2 w'
    | failed => failed
    end.
Proof.
  induction ps1 as [|p ps1 IH]; intros w; simpl; [done|].
  destruct (sendMail w.2 _) as [t' []]; [apply IH | done].
Qed.

Lemma sendRecipients_flat h a rs : forall sent w,
  sendRecipients sendMail h a rs sent w
  = match flatSend sendMail h (map (pair a) rs) w with
    | (None, w') => (inr (sent + length rs), w')
    | (Some failedTo, w') => (inl (dispatchFailed failedTo), w')
    end.
Proof.
  induction rs as [|r rs IH]; intros sent w; simpl.
  - by rewrite Nat.add_0_r.
  - destruct (sendMail w.2 _) as [t' []]; [|done].
    rewrite IH. by replace (sent + 1 + length rs) with (sent + S (length rs)) by lia.
Qed.

Lemma sendAgents_flat h ags : forall summary w,
  sendAgents sendMail h ags summary w
  = match flatSend sendMail h (pairs ags) w with
    | (None, w') =>
        (inr (summary ++ map (fun a => (id a, length (recipients a))) ags), w')
    | (Some failedTo, w') => (inl (dispatchFailed failedTo), w')
    end.
Proof.
  induction ags as [|a ags IH]; intros summary w; simpl.
  - by rewrite app_nil_r.
  - rewrite sendRecipients_flat, flatSend_app.
    destruct (flatSend sendMail h (map (pair a) (recipients a)) w) as [[failedTo|] w'];
      [done|].
    rewrite IH. destruct (flatSend sendMail h (pairs ags) w') as [[failedTo|] w''];
      [done|].
    by rewrite <- app_assoc.
Qed.

Lemma flatSend_ok h ps : forall sentSoFar t t',
  allSent sendMail (mails h ps) t = Some t' ->
  flatSend sendMail h ps (sentSoFar, t) = (None, (sentSoFar ++ mails h ps, t')).
Proof.
  induction ps as [|p ps IH]; intros sentSoFar t t'; simpl.
  - intros [= ->]. by rewrite app_nil_r.
  - destruct (sendMail t _) as [t1 []]; [|done]. intros Hrest.
    rewrite (IH _ _ _ Hrest). by rewrite <- app_assoc.
Qed.

Lemma flatSend_fail h pre a r post sentSoFar t t1 t2 :
  allSent sendMail (mails h pre) t = Some t1 ->
  sendMail t1 (mailFor h a r) = (t2, Threw) ->
  flatSend sendMail h (pre ++ (a, r) :: post) (sentSoFar, t)
  = (Some (to r), (sentSoFar ++ mails h pre ++ [mailFor h a r], t2)).
Proof.
  intros Hpre Hfail. rewrite flatSend_app, (flatSend_ok _ _ _ _ _ Hpre).
  simpl. rewrite Hfail. by rewrite <- app_assoc.
Qed.

Lemma resolveFromHeader_nonempty env f h :
  resolveFromHeader env f = Some h -> h <> [].
Proof.
  unfold resolveFromHeader.
  destruct (JS.or_else (email f) (defaultEmail env)) as [|c e] eqn:He; [done|].
  simpl. destruct (JS.or_else (fname f) (defaultName env)) as [|d n];
    intros [= <-]; done.
Qed.

(** A request that passes both checks reaches the loops. *)
Lemma POST_dispatch env data t h :
  safeParse isEmail data = [] ->
  resolveFromHeader env (default (mkFrom None None) (from data)) = Some h ->
  POST isEmail sendMail env (Some data) t
  = match flatSend sendMail h (pairs (agents data)) ([], t) with
    | (None, w) =>
        (dispatched (dryRun env)
           (foldl (fun acc item => acc + item.2) 0
              (map (fun a => (id a, length (recipients a))) (agents data)))
           (length (agents data)), w)
    | (Some failedTo, w) => (dispatchFailed failedTo, w)
    end.
Proof.
  intros Hparse Hfrom. unfold POST. rewrite Hparse, Hfrom.
  pose proof (resolveFromHeader_nonempty _ _ _ Hfrom) as Hne.
  destruct h as [|c h]; [done|]. rewrite sendAgents_flat.
  destruct (flatSend _ _ _ _) as [[failedTo|] w]; [done|].
  simpl. by rewrite length_map.
Qed.

Lemma POST_invalid env data t issue iss :
  safeParse isEmail data = issue :: iss ->
  POST isEmail sendMail env (Some data) t
  = (invalidPayload (issue :: iss), ([], t)).
Proof. intros Hparse. unfold POST. by rewrite Hparse. Qed.

Lemma total_is_pair_count (ags : list PreparedAgent) : forall acc,
  foldl (fun acc (item : str * nat) => acc + item.2) acc
    (map (fun a => (id a, length (recipients a))) ags)
  = acc + length (pairs ags).
Proof.
  induction ags as [|a ags IH]; intros acc; simpl; [lia|].
  rewrite IH, length_app, length_map. lia.
Qed.

End DispatchFacts.

(** C1. When a request has passed validation and sender resolution and the
    transport throws at some recipient after accepting every message before
    it, the route answers with status 500 and a message naming that
    recipient's address, carrying no summary; the transport has been called
    for the recipients up to and including that one, in order, and for none
    after it. *)
Theorem C1_abort_on_first_failure (isEmail : str -> bool) {T : Type}
    (sendMail : T -> MailOptions -> T * SendOutcome)
    (env : Env) (data : Payload) (fromHeader : str)
    (pre post : list (PreparedAgent * Recipient))
    (agent : PreparedAgent) (recipient : Recipient) (t t1 t2 : T) :
  safeParse isEmail data = [] ->
  resolveFromHeader env (default (mkFrom None None) (from data))
    = Some fromHeader ->
  pairs (agents data) = pre ++ (agent, recipient) :: post ->
  allSent sendMail (mails fromHeader pre) t = Some t1 ->
  sendMail t1 (mailFor fromHeader agent recipient) = (t2, Threw) ->
  POST isEmail sendMail env (Some data) t
  = ( {| status := 500; ok := false;
         message := lit "Failed to dispatch email to " ++ to recipient
                    ++ lit ". Check server logs for details.";
         issues := None |},
      (mails fromHeader pre ++ [mailFor fromHeader agent recipient], t2) ).
Proof.
  intros Hparse Hfrom Hpairs Hpre Hfail.
  rewrite (POST_dispatch _ _ _ _ _ _ Hparse Hfrom), Hpairs.
  by rewrite (flatSend_fail _ _ _ _ _ _ _ _ _ _ Hpre Hfail).
Qed.

Lemma C1_abort_on_first_failure_witness :
  let rcpt addr := mkRecipient (lit addr) (lit "Hello") (lit "Hi") None None in
  let A := mkPrepared (lit "a") (lit "A")
             [rcpt "a1@example.com"; rcpt "a2@example.com"] in
  let B := mkPrepared (lit "b") (lit "B")
             [rcpt "b1@example.com"; rcpt "b2@example.com"] in
  POST sampleIsEmail (failsOn (lit "a2@example.com"))
       (mkEnv None (Some (lit "sender@example.com")) None None None None)
       (Some (mkPayload [A; B] None)) 0
  = ( dispatchFailed (lit "a2@example.com"),
      ( [ mailFor (lit "sender@example.com") A (rcpt "a1@example.com");
          mailFor (lit "sender@example.com") A (rcpt "a2@example.com") ],
        2 ) ).
Proof.
  intros rcpt A B.
  apply (C1_abort_on_first_failure sampleIsEmail
           (failsOn (lit "a2@example.com"))
           (mkEnv None (Some (lit "sender@example.com")) None None None None)
           (mkPayload [A; B] None) (lit "sender@example.com")
           [(A, rcpt "a1@example.com")]
           [(B, rcpt "b1@example.com"); (B, rcpt "b2@example.com")]
           A (rcpt "a2@example.com") 0 1 2).
  - vm_compute. reflexivity.
  - vm_compute. reflexivity.
  - reflexivity.
  - vm_compute. reflexivity.
  - vm_compute. reflexivity.
Defined.

(** C2. The distinct count is the size of the union of the addresses that
    [handleSend] resolves for the agents (and 0 when it resolves nothing);
    when the request it posts passes validation and sender resolution and
    the transport accepts every message, the route sends one message per
    agent-recipient pair, in order, and reports that number. *)
Theorem C2_distinct_count_vs_sends (isEmail : str -> bool) {T : Type}
    (sendMail : T -> MailOptions -> T * SendOutcome)
    (uploadResult : option UploadResult)
    (emailColumn nameColumn fromEmail fromName : str)
    (definitions : list AgentDefinition) (env : Env) :
  totalRecipients uploadResult emailColumn definitions
  = match handleSend uploadResult emailColumn nameColumn fromEmail fromName
                     definitions with
    | Post payload => size (distinctEmails (agents payload))
    | _ => 0
    end
  /\ (forall payload fromHeader (t t' : T),
      handleSend uploadResult emailColumn nameColumn fromEmail fromName
                 definitions = Post payload ->
      safeParse isEmail payload = [] ->
      resolveFromHeader env (default (mkFrom None None) (from payload))
        = Some fromHeader ->
      allSent sendMail (mails fromHeader (pairs (agents payload))) t = Some t' ->
      POST isEmail sendMail env (Some payload) t
      = (dispatched (dryRun env) (length (pairs (agents payload)))
                    (length (agents payload)),
         (mails fromHeader (pairs (agents payload)), t'))
      /\ length (mails fromHeader (pairs (agents payload)))
         = sum_list (map (fun pa => length (recipients pa)) (agents payload)))
  /\ forall upload row agent1 agent2,
      uploadResult = Some upload -> rows upload = [row] ->
      definitions = [agent1; agent2] -> emailColumn <> [] ->
      applyFilter row (filter agent1) = true ->
      applyFilter row (filter agent2) = true ->
      JS.trim (default [] (row_get row emailColumn)) <> [] ->
      totalRecipients uploadResult emailColumn definitions = 1
      /\ exists payload,
          handleSend uploadResult emailColumn nameColumn fromEmail fromName
                     definitions = Post payload
          /\ length (pairs (agents payload)) = 2.
Proof.
  split; [|split]; cycle 2.
  { intros upload row agent1 agent2 -> Hrows -> Hcol Hf1 Hf2 Hemail.
    assert (JS.truthy (normalizeValue (row_get row emailColumn)) = true) as Ht.
    { apply truthy_nonempty. unfold normalizeValue.
      by destruct (row_get row emailColumn). }
    unfold totalRecipients, handleSend, preparedAgents, resolveRecipients.
    destruct emailColumn as [|c ec]; [done|]. cbn [JS.truthy negb].
    rewrite Hrows. cbn [foldl List.filter map]. unfold addRowEmail.
    rewrite Hf1, Hf2. cbn [negb omap list_omap]. unfold prepareRecipient.
    rewrite Ht. cbn. split.
    - set (e := normalizeValue (row_get row (c :: ec))).
      replace ({[e]} ∪ ({[e]} ∪ ∅) : gset str) with ({[e]} : gset str)
        by set_solver.
      apply size_singleton.
    - eexists. split; reflexivity. }
  - unfold totalRecipients, handleSend. destruct uploadResult as [upload|]; [|done].
    destruct emailColumn as [|c ec]; [done|]. cbn [JS.truthy negb].
    rewrite (foldl_agents _ nameColumn), union_empty_l_L.
    destruct (preparedAgents _ _ _ _); done.
  - intros payload fromHeader t t' _ Hparse Hfrom Hsent. split.
    + rewrite (POST_dispatch _ _ _ _ _ _ Hparse Hfrom).
      rewrite (flatSend_ok _ _ _ _ _ _ Hsent), total_is_pair_count. done.
    + unfold mails. rewrite length_map. clear.
      induction (agents payload) as [|pa ps IH]; simpl; [done|].
      by rewrite length_app, length_map, IH.
Qed.

Lemma C2_distinct_count_vs_sends_witness :
  let upload := mkUpload [lit "Name"; lit "Email"]
                  [ [(lit "Name", lit "Ana"); (lit "Email", lit "ana@example.com")] ]
                  (lit "contacts.csv") in
  let definitions :=
    [ mkAgent (lit "a1") (lit "First") (lit "Hello {{Name}}") (lit "Hi") None;
      mkAgent (lit "a2") (lit "Second") (lit "News for {{Name}}") (lit "Hi") None ] in
  let payload :=
    mkPayload (preparedAgents (lit "Email") (lit "Name") (rows upload) definitions)
              (Some (mkFrom (Some (lit "sender@example.com")) (Some []))) in
  totalRecipients (Some upload) (lit "Email") definitions = 1
  /\ length (POST sampleIsEmail alwaysSends
               (mkEnv None None None None None None) (Some payload) 0).2.1 = 2.
Proof.
  intros upload definitions payload.
  destruct (C2_distinct_count_vs_sends sampleIsEmail alwaysSends (Some upload)
              (lit "Email") (lit "Name") (lit "sender@example.com") []
              definitions (mkEnv None None None None None None))
    as (_ & Hsends & Hsame).
  split.
  - apply (Hsame upload
             [(lit "Name", lit "Ana"); (lit "Email", lit "ana@example.com")]
             (mkAgent (lit "a1") (lit "First") (lit "Hello {{Name}}") (lit "Hi") None)
             (mkAgent (lit "a2") (lit "Second") (lit "News for {{Name}}") (lit "Hi") None));
      try reflexivity; vm_compute; discriminate.
  - destruct (Hsends payload (lit "sender@example.com") 0 2) as (Hpost & Hlen).
    + vm_compute. reflexivity.
    + vm_compute. reflexivity.
    + vm_compute. reflexivity.
    + vm_compute. reflexivity.
    + rewrite Hpost. cbn [snd fst]. rewrite Hlen. vm_compute. reflexivity.
Defined.

(** ** Validation and the sender *)

Section ValidationFacts.

Variable isEmail : str -> bool.

Lemma concat_imap_nil {A B} (l : list A) : forall (f : nat -> A -> list B),
  concat (imap f l) = [] -> forall i x, l !! i = Some x -> f i x = [].
Proof.
  induction l as [|y l IH]; intros f Hnil i x Hi; [done|].
  rewrite imap_cons in Hnil. simpl in Hnil.
  apply app_eq_nil in Hnil as [Hhead Htail].
  destruct i as [|i]; simpl in Hi.
  - by injection Hi as ->.
  - apply (IH (f ∘ S) Htail i x Hi).
Qed.

Lemma checkRecipient_nil at_ r :
  checkRecipient isEmail at_ r = [] ->
  isEmail (to r) = true /\ subject r <> [] /\ body r <> [].
Proof.
  unfold checkRecipient.
  destruct (isEmail (to r)); [|done].
  destruct (subject r); [done|]. destruct (body r); done.
Qed.

Lemma checkAgent_nil at_ a :
  checkAgent isEmail at_ a = [] ->
  recipients a <> []
  /\ forall r, r ∈ recipients a ->
               isEmail (to r) = true /\ subject r <> [] /\ body r <> [].
Proof.
  unfold checkAgent. intros [Hmin Hall]%app_eq_nil. split.
  - by destruct (recipients a).
  - intros r (i & Hi)%list_elem_of_lookup.
    eapply checkRecipient_nil, (concat_imap_nil _ _ Hall i r Hi).
Qed.

(** What a payload without violations looks like. *)
Lemma safeParse_nil data :
  safeParse isEmail data = [] ->
  agents data <> []
  /\ (forall a, a ∈ agents data ->
        recipients a <> []
        /\ forall r, r ∈ recipients a ->
                     isEmail (to r) = true /\ subject r <> [] /\ body r <> [])
  /\ (forall f e, from data = Some f -> email f = Some e -> isEmail e = true).
Proof.
  unfold safeParse. intros [Hmin [Hall Hfrom]%app_eq_nil]%app_eq_nil.
  split; [by destruct (agents data)|]. split.
  - intros a (i & Hi)%list_elem_of_lookup.
    eapply checkAgent_nil, (concat_imap_nil _ _ Hall i a Hi).
  - intros [fe fn] e Hf He. simpl in He. subst fe. rewrite Hf in Hfrom.
    simpl in Hfrom. by destruct (isEmail e).
Qed.

Lemma checkFrom_invalid f e :
  email f = Some e -> isEmail e = false ->
  checkFrom isEmail (Some f)
  = [ {| code := invalid_string; path := [Key "from"; Key "email"] |} ].
Proof. destruct f as [fe fn]. simpl. intros -> ->. done. Qed.

End ValidationFacts.

Section SenderFacts.

Context {T : Type}.
Variable sendMail : T -> MailOptions -> T * SendOutcome.




End SenderFacts.

(** C7. A payload with no agents, or with an agent without recipients, or
    with a recipient whose [to] fails the address check or whose subject or
    body is empty, is answered with status 422 and a non-empty list of
    violations, and the transport is not called. *)
Theorem C7_wholesale_validation (isEmail : str -> bool) {T : Type}
    (sendMail : T -> MailOptions -> T * SendOutcome)
    (env : Env) (data : Payload) (t : T) :
  agents data = []
  \/ (exists a, a ∈ agents data /\ recipients a = [])
  \/ (exists a r, a ∈ agents data /\ r ∈ recipients a
                  /\ (isEmail (to r) = false \/ subject r = [] \/ body r = [])) ->
  exists issue more,
    POST isEmail sendMail env (Some data) t
    = ( {| status := 422; ok := false; message := lit "Invalid payload.";
           issues := Some (issue :: more) |},
        ([], t) ).
Proof.
  intros Hbad.
  destruct (safeParse isEmail data) as [|issue more] eqn:Hparse.
  - exfalso. apply safeParse_nil in Hparse as (Hags & Hall & _).
    destruct Hbad as [Hnil | [(a & Ha & Hnil) | (a & r & Ha & Hr & Hbad)]].
    + done.
    + by destruct (Hall a Ha) as [Hne _].
    + destruct (Hall a Ha) as [_ Hrs].
      destruct (Hrs r Hr) as (Hto & Hsubject & Hbody).
      destruct Hbad as [Hbad | [Hbad | Hbad]]; congruence.
  - exists issue, more. by apply POST_invalid.
Qed.

Lemma C7_wholesale_validation_witness :
  exists issue more,
    POST sampleIsEmail alwaysSends
         (mkEnv None (Some (lit "sender@example.com")) None None None None)
         (Some (mkPayload
                  [ mkPrepared (lit "a") (lit "A")
                      [ mkRecipient (lit "ana@example.com") (lit "Hello") (lit "Hi") None None ];
                    mkPrepared (lit "b") (lit "B") [] ]
                  None)) 0
    = (invalidPayload (issue :: more), ([], 0)).
Proof.
  apply (C7_wholesale_validation sampleIsEmail alwaysSends).
  right; left. exists (mkPrepared (lit "b") (lit "B") []).
  split; [|reflexivity]. apply list_elem_of_In. simpl. right. left. reflexivity.
Defined.




(** C9. A request whose [from.email] is present and fails the address check
    is answered with status 422 and a list of violations that holds the one
    at [from.email]; the transport is not called, whatever default sender
    the process has.  The empty string is such a value as soon as the
    address check refuses it. *)
Theorem C9_invalid_sender_rejected (isEmail : str -> bool) {T : Type}
    (sendMail : T -> MailOptions -> T * SendOutcome)
    (env : Env) (data : Payload) (sender : FromField) (address : str) (t : T) :
  from data = Some sender ->
  email sender = Some address ->
  isEmail address = false ->
  exists violations,
    POST isEmail sendMail env (Some data) t
    = ( {| status := 422; ok := false; message := lit "Invalid payload.";
           issues := Some violations |},
        ([], t) )
    /\ {| code := invalid_string; path := [Key "from"; Key "email"] |}
       ∈ violations.
Proof.
  intros Hfrom Hemail Hbad.
  assert ({| code := invalid_string; path := [Key "from"; Key "email"] |}
          ∈ safeParse isEmail data) as Hin.
  { unfold safeParse. rewrite Hfrom, (checkFrom_invalid _ _ _ Hemail Hbad).
    rewrite !elem_of_app. right; right. by left. }
  destruct (safeParse isEmail data) as [|issue more] eqn:Hparse.
  - by apply not_elem_of_nil in Hin.
  - exists (issue :: more). split; [|done]. by apply POST_invalid.
Qed.

Lemma C9_invalid_sender_rejected_witness :
  exists violations,
    POST sampleIsEmail alwaysSends
         (mkEnv None None None None (Some (lit "default@example.com")) None)
         (Some (mkPayload
                  [ mkPrepared (lit "a") (lit "A")
                      [ mkRecipient (lit "ana@example.com") (lit "Hello")
                                    (lit "Hi") None None ] ]
                  (Some (mkFrom (Some []) (Some []))))) 0
    = (invalidPayload violations, ([], 0))
    /\ {| code := invalid_string; path := [Key "from"; Key "email"] |}
       ∈ violations.
Proof.
  apply (C9_invalid_sender_rejected sampleIsEmail alwaysSends
           (mkEnv None None None None (Some (lit "default@example.com")) None)
           _ (mkFrom (Some []) (Some [])) []).
  - reflexivity.
  - reflexivity.
  - vm_compute. reflexivity.
Defined.

(** * Further properties of the code *)

(** ** [normalizeValue] *)

Section TrimFacts.

Implicit Types (s w : str) (c : ascii).

Lemma trimStart_split s : exists w, allSpace w /\ s = w ++ JS.trimStart s.
Proof.
  induction s as [|c s (w & Hw & IH)]; simpl.
  - exists []. by split; [constructor|].
  - destruct (JS.isWhiteSpace c) eqn:Hc.
    + exists (c :: w). split; [by constructor|]. simpl. by rewrite <- IH.
    + exists []. by split; [constructor|].
Qed.

Lemma trimStart_head s c r :
  JS.trimStart s = c :: r -> JS.isWhiteSpace c = false.
Proof.
  induction s as [|d s IH]; simpl; [done|].
  destruct (JS.isWhiteSpace d) eqn:Hd; [done|]. by intros [= <- _].
Qed.

Lemma trimStart_fixed s :
  (forall c, head s = Some c -> JS.isWhiteSpace c = false) ->
  JS.trimStart s = s.
Proof. destruct s as [|c s]; simpl; [done|]. intros H. by rewrite (H c). Qed.

Lemma trimEnd_split s : exists w, allSpace w /\ s = JS.trimEnd s ++ w.
Proof.
  destruct (trimStart_split (reverse s)) as (w & Hw & Heq).
  exists (reverse w). split; [by apply Forall_reverse|].
  unfold JS.trimEnd. rewrite <- reverse_app, <- Heq. by rewrite reverse_involutive.
Qed.

Lemma trimEnd_last s c :
  last (JS.trimEnd s) = Some c -> JS.isWhiteSpace c = false.
Proof.
  unfold JS.trimEnd. rewrite last_reverse.
  destruct (JS.trimStart (reverse s)) as [|d r] eqn:Ht; simpl; [done|].
  intros [= <-]. by eapply trimStart_head.
Qed.

Lemma trimEnd_fixed s :
  (forall c, last s = Some c -> JS.isWhiteSpace c = false) ->
  JS.trimEnd s = s.
Proof.
  intros H. unfold JS.trimEnd. rewrite trimStart_fixed.
  - apply reverse_involutive.
  - intros c Hc. apply H. by rewrite <- head_reverse.
Qed.

Lemma trimEnd_head s c :
  JS.isWhiteSpace c = false -> exists r, JS.trimEnd (c :: s) = c :: r.
Proof.
  intros Hc. destruct (trimEnd_split (c :: s)) as (w & Hw & Heq).
  destruct (JS.trimEnd (c :: s)) as [|d r]; simpl in Heq.
  - subst w. apply Forall_cons in Hw as [Hw _]. congruence.
  - injection Heq as <- _. by exists r.
Qed.

Lemma trim_trimmed s : trimmed (JS.trim s).
Proof.
  unfold JS.trim. split; [|apply trimEnd_last].
  destruct (JS.trimStart s) as [|d r] eqn:Ht; [done|].
  destruct (trimEnd_head r d (trimStart_head _ _ _ Ht)) as (r' & ->).
  simpl. intros c [= <-]. by eapply trimStart_head.
Qed.

Lemma trim_fixed s : trimmed s -> JS.trim s = s.
Proof.
  intros [Hh Hl]. unfold JS.trim. rewrite trimStart_fixed by done.
  by apply trimEnd_fixed.
Qed.

Lemma trim_split s :
  exists w1 w2, allSpace w1 /\ allSpace w2 /\ s = w1 ++ JS.trim s ++ w2.
Proof.
  destruct (trimStart_split s) as (w1 & H1 & Heq1).
  destruct (trimEnd_split (JS.trimStart s)) as (w2 & H2 & Heq2).
  exists w1, w2. repeat split; [done|done|]. unfold JS.trim.
  by rewrite <- Heq2.
Qed.

Lemma trim_idem s : JS.trim (JS.trim s) = JS.trim s.
Proof. apply trim_fixed, trim_trimmed. Qed.

End TrimFacts.

(** X1. [normalizeValue] gives the empty string for a missing cell and
    otherwise the cell without the white space at its two ends: the cell is
    the result between two runs of white space, the result neither starts
    nor ends with white space, and normalizing a normalized value changes
    nothing. *)
Theorem normalizeValue_trims (v : str) :
  normalizeValue None = []
  /\ (exists w1 w2, allSpace w1 /\ allSpace w2
                    /\ v = w1 ++ normalizeValue (Some v) ++ w2)
  /\ trimmed (normalizeValue (Some v))
  /\ normalizeValue (Some (normalizeValue (Some v))) = normalizeValue (Some v).
Proof.
  split; [done|]. split; [apply trim_split|]. split; [apply trim_trimmed|].
  apply trim_idem.
Qed.

(** ** [applyFilter] *)

Section FilterFacts.

Implicit Types (row : DataRow) (f : AgentFilter).

(** The filter once its column and value are not empty. *)
Lemma applyFilter_active row f :
  column f <> [] -> value f <> [] ->
  applyFilter row (Some f)
  = let haystack := JS.toLowerCase (default [] (row_get row (column f))) in
    let needle := JS.toLowerCase (value f) in
    if decide (operator f = lit "equals") then bool_decide (haystack = needle)
    else if decide (operator f = lit "contains") then JS.includes haystack needle
    else if decide (operator f = lit "startsWith") then JS.startsWith haystack needle
    else if decide (operator f = lit "endsWith") then JS.endsWith haystack needle
    else true.
Proof.
  intros Hc Hv. unfold applyFilter.
  destruct (column f); [done|]. by destruct (value f).
Qed.

Lemma applyFilter_op row f (op : string) :
  column f <> [] -> value f <> [] ->
  applyFilter row (Some (withOperator op f))
  = let haystack := JS.toLowerCase (default [] (row_get row (column f))) in
    let needle := JS.toLowerCase (value f) in
    if decide (lit op = lit "equals") then bool_decide (haystack = needle)
    else if decide (lit op = lit "contains") then JS.includes haystack needle
    else if decide (lit op = lit "startsWith") then JS.startsWith haystack needle
    else if decide (lit op = lit "endsWith") then JS.endsWith haystack needle
    else true.
Proof. intros Hc Hv. by rewrite applyFilter_active. Qed.

Lemma toLowerCase_truthy (s t : str) :
  JS.toLowerCase s = JS.toLowerCase t -> JS.truthy s = JS.truthy t.
Proof. by destruct s, t. Qed.

Lemma toLowerCase_nonempty (s : str) : s <> [] -> JS.toLowerCase s <> [].
Proof. by destruct s. Qed.

Lemma startsWith_nil (needle : str) :
  needle <> [] -> JS.startsWith [] needle = false.
Proof. by destruct needle. Qed.

End FilterFacts.

(** X2. A call of [applyFilter] does not see letter case in the cell it
    reads nor in the filter value: two rows whose reads under the filter
    column yield cells of the same lower-casing (a read that yields
    nothing counting as an empty cell), or both an inherited member, and
    two filters on that column with the same operator and values of the
    same lower-casing, have the same outcome. *)
Theorem applyFilter_ignores_case (row row' : DataRow) (f f' : AgentFilter) :
  column f' = column f ->
  operator f' = operator f ->
  JS.toLowerCase (value f') = JS.toLowerCase (value f) ->
  loweredCell row' (column f) = loweredCell row (column f) ->
  applyFilterCall row' (Some f') = applyFilterCall row (Some f).
Proof.
  intros Hc Ho Hv Hcell. unfold applyFilterCall.
  rewrite Hc, Ho, Hv, (toLowerCase_truthy _ _ Hv).
  destruct (negb _ || negb _); [done|].
  unfold loweredCell in Hcell.
  destruct (row_read row' (column f)) as [[cell'|name']|],
           (row_read row (column f)) as [[cell|name]|];
    try done; cbv [default from_option Datatypes.id];
    injection Hcell as Hcell; first [by rewrite <- Hcell | by rewrite Hcell].
Qed.

Lemma applyFilter_ignores_case_witness :
  applyFilterCall [(lit "Team", lit "SALES emea")]
                  (Some (mkFilter (lit "Team") (lit "startsWith") (lit "Sales")))
  = applyFilterCall [(lit "Name", lit "Ana"); (lit "Team", lit "sales EMEA")]
                    (Some (mkFilter (lit "Team") (lit "startsWith") (lit "sAlEs"))).
Proof.
  apply (applyFilter_ignores_case
           [(lit "Name", lit "Ana"); (lit "Team", lit "sales EMEA")]
           [(lit "Team", lit "SALES emea")]
           (mkFilter (lit "Team") (lit "startsWith") (lit "sAlEs"))
           (mkFilter (lit "Team") (lit "startsWith") (lit "Sales")));
    vm_compute; reflexivity.
Defined.

(** X3. On one column and value the operators are ordered: a row that
    passes [equals] passes [startsWith] and [endsWith], and a row that
    passes [startsWith] or [endsWith] passes [contains]. *)
Theorem applyFilter_operator_order (row : DataRow) (f : AgentFilter) :
  (applyFilter row (Some (withOperator "equals" f)) = true ->
   applyFilter row (Some (withOperator "startsWith" f)) = true
   /\ applyFilter row (Some (withOperator "endsWith" f)) = true)
  /\ (applyFilter row (Some (withOperator "startsWith" f)) = true
      \/ applyFilter row (Some (withOperator "endsWith" f)) = true ->
      applyFilter row (Some (withOperator "contains" f)) = true).
Proof.
  destruct (decide (column f = [])) as [Hc|Hc].
  { unfold applyFilter, withOperator. simpl. rewrite Hc. by split. }
  destruct (decide (value f = [])) as [Hv|Hv].
  { unfold applyFilter, withOperator. simpl. rewrite Hv, orb_true_r. by split. }
  rewrite !applyFilter_op by done. cbv zeta.
  repeat first [ rewrite decide_True by done
               | rewrite decide_False by (by vm_compute) ].
  rewrite bool_decide_eq_true, startsWith_prefix, endsWith_suffix,
    includes_infix.
  split.
  - intros ->. split; [exists []; by rewrite app_nil_r | by exists []].
  - intros [[k Hk] | [k Hk]].
    + by exists [], k.
    + exists k, []. by rewrite app_nil_r.
Qed.

Lemma applyFilter_operator_order_witness :
  applyFilter [(lit "Team", lit "Sales EMEA")]
    (Some (withOperator "contains" (mkFilter (lit "Team") (lit "equals") (lit "emea"))))
  = true.
Proof.
  apply (applyFilter_operator_order [(lit "Team", lit "Sales EMEA")]
           (mkFilter (lit "Team") (lit "equals") (lit "emea"))).
  right. vm_compute. reflexivity.
Defined.

(** X4. A call of [applyFilter] with a column, a value and one of the
    four operators returns false on every row whose read under that column
    yields an empty cell or nothing at all; in particular the column name
    is compared as it is, so a column spelled in another letter case is a
    missing column. *)
Theorem applyFilter_missing_cell (row : DataRow) (f : AgentFilter) :
  column f <> [] -> value f <> [] -> knownOperator (operator f) ->
  row_read row (column f) = None \/ row_read row (column f) = Some (VString []) ->
  applyFilterCall row (Some f) = Returns false.
Proof.
  intros Hc Hv Hop Hcell.
  assert ((row_get row (column f) = None -> column f ∉ protoMembers)
          /\ default [] (row_get row (column f)) = []) as [Hown Hempty].
  { unfold row_read in Hcell.
    destruct (row_get row (column f)) as [cell|].
    - split; [done|]. by destruct Hcell as [|[= ->]].
    - split; [|done]. intros _. case_decide; [|done]. by destruct Hcell. }
  rewrite applyFilterCall_own by done. f_equal.
  rewrite applyFilter_active by done. cbv zeta.
  rewrite Hempty. simpl JS.toLowerCase.
  pose proof (toLowerCase_nonempty _ Hv) as Hne.
  destruct Hop as [Hop|[Hop|[Hop|Hop]]]; rewrite Hop;
    repeat first [ rewrite decide_True by done
                 | rewrite decide_False by (by vm_compute) ].
  - apply bool_decide_eq_false. congruence.
  - cbn [JS.includes]. by rewrite startsWith_nil.
  - by apply startsWith_nil.
  - unfold JS.endsWith. rewrite reverse_nil. apply startsWith_nil.
    intros H. apply Hne. by rewrite <- (reverse_involutive _), H.
Qed.

Lemma applyFilter_missing_cell_witness :
  applyFilterCall [(lit "Company", lit "Acme Corp")]
    (Some (mkFilter (lit "company") (lit "contains") (lit "acme")))
  = Returns false.
Proof.
  apply applyFilter_missing_cell.
  - discriminate.
  - discriminate.
  - right; left. reflexivity.
  - left. vm_compute. reflexivity.
Defined.

(** ** Resolving and counting recipients *)

Section ResolveMore.

Implicit Types (emailColumn nameColumn : str) (agent : AgentDefinition).

Lemma filter_sublist {A} (p : A -> bool) (l : list A) :
  List.filter p l `sublist_of` l.
Proof.
  induction l as [|x l IH]; simpl; [constructor|].
  destruct (p x); by constructor.
Qed.

Lemma omap_sublist {A B} (g : A -> option B) (l1 l2 : list A) :
  l1 `sublist_of` l2 -> omap g l1 `sublist_of` omap g l2.
Proof.
  induction 1 as [|x l1 l2 _ IH|x l1 l2 _ IH]; simpl; [constructor| |];
    destruct (g x); try done; by constructor.
Qed.

Lemma resolve_emails emailColumn nameColumn agent rows :
  to <$> omap (prepareRecipient emailColumn nameColumn agent) rows
  = List.filter JS.truthy (rowEmails emailColumn rows).
Proof.
  induction rows as [|row rows IH]; [done|].
  cbn [omap list_omap rowEmails fmap list_fmap List.filter].
  fold (rowEmails emailColumn rows). rewrite <- IH.
  unfold prepareRecipient at 1.
  by destruct (JS.truthy (normalizeValue (row_get row emailColumn))).
Qed.

Lemma resolveRecipients_to_sub emailColumn nameColumn agent rows :
  to <$> resolveRecipients emailColumn nameColumn rows agent
    `sublist_of` rowEmails emailColumn rows.
Proof.
  etrans.
  - apply fmap_sublist, omap_sublist, filter_sublist.
  - rewrite resolve_emails. apply filter_sublist.
Qed.

Lemma size_list_to_set_le (l : list str) :
  size (list_to_set l : gset str) <= length l.
Proof.
  induction l as [|x l IH].
  - done.
  - rewrite list_to_set_cons. cbn [length].
    rewrite size_union_alt, size_singleton.
    assert (size ((list_to_set l : gset str) ∖ {[x]})
            <= size (list_to_set l : gset str)) as Hle
      by (apply subseteq_size; set_solver).
    lia.
Qed.

Lemma distinctEmails_pairs (prepared : list PreparedAgent) :
  distinctEmails prepared = list_to_set ((fun p => to p.2) <$> pairs prepared).
Proof.
  unfold distinctEmails, emailsOf, pairs.
  induction prepared as [|pa ps IH]; [done|].
  cbn [flat_map]. rewrite fmap_cons, union_list_cons, IH.
  rewrite fmap_app, list_to_set_app_L. f_equal.
  change (map (pair pa) (recipients pa)) with (pair pa <$> recipients pa).
  by rewrite <- list_fmap_compose.
Qed.

Lemma preparedAgents_nonempty emailColumn nameColumn rows agents pa :
  pa ∈ preparedAgents emailColumn nameColumn rows agents ->
  recipients pa <> [].
Proof. by intros (a & _ & _ & H)%elem_of_preparedAgents. Qed.

Lemma totalRecipients_prepared upload emailColumn nameColumn agents :
  emailColumn <> [] ->
  totalRecipients (Some upload) emailColumn agents
  = size (distinctEmails
            (preparedAgents emailColumn nameColumn (rows upload) agents)).
Proof.
  intros Hcol. unfold totalRecipients.
  destruct emailColumn as [|c ec]; [done|]. cbn [JS.truthy negb].
  by rewrite (foldl_agents _ nameColumn), union_empty_l_L.
Qed.

End ResolveMore.

(** X5. The recipients of an agent keep the order of the rows: their
    addresses are a subsequence of the normalized email cells, and adding a
    filter to an agent only leaves recipients out. *)
Theorem resolveRecipients_order (emailColumn nameColumn : str)
    (rows : list DataRow) (agent : AgentDefinition) :
  to <$> resolveRecipients emailColumn nameColumn rows agent
    `sublist_of` rowEmails emailColumn rows
  /\ resolveRecipients emailColumn nameColumn rows agent
       `sublist_of` resolveRecipients emailColumn nameColumn rows
                                     (withoutFilter agent)
  /\ to <$> resolveRecipients emailColumn nameColumn rows (withoutFilter agent)
     = List.filter JS.truthy (rowEmails emailColumn rows).
Proof.
  assert (resolveRecipients emailColumn nameColumn rows (withoutFilter agent)
          = omap (prepareRecipient emailColumn nameColumn agent) rows) as Hall.
  { unfold resolveRecipients. simpl.
    replace (List.filter (fun _ => true) rows) with rows; [done|].
    induction rows as [|row rows IH]; simpl; by rewrite <- ?IH. }
  assert (resolveRecipients emailColumn nameColumn rows agent
            `sublist_of` omap (prepareRecipient emailColumn nameColumn agent) rows)
    as Hsub by apply omap_sublist, filter_sublist.
  split; [|split].
  - apply resolveRecipients_to_sub.
  - by rewrite Hall.
  - rewrite Hall. apply resolve_emails.
Qed.

(** X6. The distinct count is at most the number of rows of the table,
    however many agents there are, and at most the number of messages the
    request of [handleSend] asks for. *)
Theorem totalRecipients_bounds (upload : UploadResult)
    (emailColumn nameColumn : str) (agents : list AgentDefinition) :
  totalRecipients (Some upload) emailColumn agents <= length (rows upload)
  /\ totalRecipients (Some upload) emailColumn agents
     <= length (pairs (preparedAgents emailColumn nameColumn (rows upload) agents)).
Proof.
  destruct (decide (emailColumn = [])) as [->|Hcol]; [simpl; lia|].
  rewrite (totalRecipients_prepared _ _ nameColumn) by done.
  set (prepared := preparedAgents _ _ _ _). split.
  - replace (length (rows upload))
      with (length (rowEmails emailColumn (rows upload)))
      by apply length_fmap.
    etrans; [|apply size_list_to_set_le].
    apply subseteq_size. intros e. unfold distinctEmails.
    rewrite elem_of_union_list. intros (X & HX & He).
    apply list_elem_of_fmap in HX as (pa & -> & Hpa).
    apply elem_of_preparedAgents in Hpa as (a & _ & Hrs & _).
    unfold emailsOf in He. rewrite Hrs in He.
    apply elem_of_list_to_set in He. apply elem_of_list_to_set.
    eapply elem_of_sublist; [done | apply resolveRecipients_to_sub].
  - rewrite distinctEmails_pairs. etrans; [apply size_list_to_set_le|].
    by rewrite length_fmap.
Qed.

(** ** What [handleSend] posts and what the schema accepts *)

Section AcceptFacts.

Variable isEmail : str -> bool.

Lemma concat_imap_all_nil {A B} (l : list A) : forall (f : nat -> A -> list B),
  (forall i x, l !! i = Some x -> f i x = []) -> concat (imap f l) = [].
Proof.
  induction l as [|y l IH]; intros f Hall; [done|].
  rewrite imap_cons. simpl. rewrite (Hall 0 y) by done. simpl.
  apply IH. intros i x Hi. apply (Hall (S i) x Hi).
Qed.

Lemma checkRecipient_valid at_ r :
  validRecipient isEmail r -> checkRecipient isEmail at_ r = [].
Proof.
  intros (Hto & Hsubject & Hbody). unfold checkRecipient. rewrite Hto.
  destruct (subject r); [done|]. by destruct (body r).
Qed.

Lemma checkAgent_valid at_ a :
  recipients a <> [] ->
  (forall r, r ∈ recipients a -> validRecipient isEmail r) ->
  checkAgent isEmail at_ a = [].
Proof.
  intros Hne Hall. unfold checkAgent.
  destruct (recipients a) as [|r rs] eqn:Hrs; [done|]. simpl length.
  cbn [Nat.ltb Nat.leb app]. apply concat_imap_all_nil.
  intros i x Hi. apply checkRecipient_valid, Hall.
  by eapply list_elem_of_lookup_2.
Qed.

(** The converse of [safeParse_nil]. *)
Lemma safeParse_valid data :
  agents data <> [] ->
  (forall a, a ∈ agents data ->
     recipients a <> []
     /\ forall r, r ∈ recipients a -> validRecipient isEmail r) ->
  (forall f e, from data = Some f -> email f = Some e -> isEmail e = true) ->
  safeParse isEmail data = [].
Proof.
  intros Hne Hall Hfrom. unfold safeParse.
  destruct (agents data) as [|a ags] eqn:Hags; [done|]. simpl length.
  cbn [Nat.ltb Nat.leb app].
  rewrite concat_imap_all_nil.
  - simpl. destruct (from data) as [[[e|] fn]|]; simpl; try done.
    by rewrite (Hfrom _ e eq_refl eq_refl).
  - intros i x Hi. destruct (Hall x) as [Hrs Hvalid].
    + by eapply list_elem_of_lookup_2.
    + by apply checkAgent_valid.
Qed.

Lemma handleSend_Post uploadResult emailColumn nameColumn fromEmail fromName
    definitions payload :
  handleSend uploadResult emailColumn nameColumn fromEmail fromName definitions
    = Post payload ->
  exists upload,
    uploadResult = Some upload /\ emailColumn <> []
    /\ agents payload
       = preparedAgents emailColumn nameColumn (rows upload) definitions
    /\ agents payload <> []
    /\ from payload = Some (mkFrom (Some fromEmail) (Some fromName)).
Proof.
  unfold handleSend. destruct uploadResult as [upload|]; [|done].
  destruct emailColumn as [|c ec]; [done|]. cbn [JS.truthy negb].
  destruct (preparedAgents _ _ _ _) as [|pa ps] eqn:Hprep; [done|].
  intros [= <-]. exists upload. by repeat split.
Qed.

End AcceptFacts.

(** X7. The schema accepts exactly the payloads that have at least one
    agent, in which every agent has at least one recipient and every
    recipient an address that passes the check and a non-empty subject and
    body, and whose [from.email], when present, passes the check. *)
Theorem safeParse_accepts (isEmail : str -> bool) (data : Payload) :
  safeParse isEmail data = []
  <-> agents data <> []
      /\ (forall a, a ∈ agents data ->
             recipients a <> []
             /\ forall r, r ∈ recipients a -> validRecipient isEmail r)
      /\ (forall f e, from data = Some f -> email f = Some e ->
                      isEmail e = true).
Proof.
  split.
  - apply safeParse_nil.
  - intros (Hne & Hall & Hfrom). by apply safeParse_valid.
Qed.

(** X8. The send button is enabled (when nothing is being sent) exactly
    when [handleSend] would post a request: the distinct count is zero
    exactly when there is no table, no email column, or no agent with a
    recipient. *)
Theorem send_button_agrees (uploadResult : option UploadResult)
    (emailColumn nameColumn fromEmail fromName : str)
    (definitions : list AgentDefinition) :
  sendDisabled false (totalRecipients uploadResult emailColumn definitions)
    = false
  <-> exists payload,
        handleSend uploadResult emailColumn nameColumn fromEmail fromName
                   definitions = Post payload.
Proof.
  unfold sendDisabled. cbn [orb]. rewrite Nat.eqb_neq.
  destruct uploadResult as [upload|]; [|by split; [|intros [? ?]]].
  destruct (decide (emailColumn = [])) as [->|Hcol];
    [by split; [|intros [? ?]]|].
  rewrite (totalRecipients_prepared _ _ nameColumn) by done.
  unfold handleSend. destruct emailColumn as [|c ec]; [done|].
  cbn [JS.truthy negb].
  destruct (preparedAgents _ _ _ _) as [|pa ps] eqn:Hprep.
  - split; [done | by intros [? ?]].
  - split; [by eexists|]. intros _. apply size_non_empty_iff.
    assert (pa ∈ preparedAgents (c :: ec) nameColumn (rows upload) definitions)
      as Hpa by (rewrite Hprep; by left).
    apply preparedAgents_nonempty in Hpa.
    destruct (recipients pa) as [|r rs] eqn:Hrs; [done|].
    intros Hempty. assert (to r ∈ distinctEmails (pa :: ps)) as Hin.
    { unfold distinctEmails, emailsOf. rewrite fmap_cons, union_list_cons, Hrs.
      set_solver. }
    rewrite Hempty in Hin. set_solver.
Qed.

(** X9. A request posted by [handleSend] always has agents, every one of
    them with recipients, and always carries the two sender fields of the
    form; so the route accepts it exactly when the sender email of the form
    passes the address check and every recipient has an address that passes
    it and a non-empty rendered subject and body. *)
Theorem handleSend_request (isEmail : str -> bool)
    (uploadResult : option UploadResult)
    (emailColumn nameColumn fromEmail fromName : str)
    (definitions : list AgentDefinition) (payload : Payload) :
  handleSend uploadResult emailColumn nameColumn fromEmail fromName definitions
    = Post payload ->
  agents payload <> []
  /\ (forall a, a ∈ agents payload -> recipients a <> [])
  /\ from payload = Some (mkFrom (Some fromEmail) (Some fromName))
  /\ (safeParse isEmail payload = []
      <-> isEmail fromEmail = true
          /\ forall a r, a ∈ agents payload -> r ∈ recipients a ->
                         validRecipient isEmail r).
Proof.
  intros (upload & -> & Hcol & Hags & Hne & Hfrom)%handleSend_Post.
  assert (forall a, a ∈ agents payload -> recipients a <> []) as Hrs.
  { intros a. rewrite Hags. apply preparedAgents_nonempty. }
  split; [done|]. split; [done|]. split; [done|]. split.
  - intros (_ & Hall & Hsender)%safeParse_nil. split.
    + by apply (Hsender _ fromEmail Hfrom).
    + intros a r Ha Hr. destruct (Hall a Ha) as [_ Hvalid].
      exact (Hvalid r Hr).
  - intros [Hsender Hvalid]. apply safeParse_valid; [done| |].
    + intros a Ha. split; [by apply Hrs|]. intros r Hr.
      exact (Hvalid a r Ha Hr).
    + intros f e. rewrite Hfrom. by intros [= <-] [= <-].
Qed.

Lemma handleSend_request_witness :
  let payload :=
    mkPayload
      (preparedAgents (lit "Email") [] [ [(lit "Email", lit "ana@example.com")] ]
         [ mkAgent (lit "a1") (lit "General") (lit "{{Subject}}") (lit "Hi") None ])
      (Some (mkFrom (Some (lit "ops@example.com")) (Some []))) in
  safeParse sampleIsEmail payload <> [].
Proof.
  intros payload Hparse.
  destruct (handleSend_request sampleIsEmail
              (Some (mkUpload [lit "Email"]
                       [ [(lit "Email", lit "ana@example.com")] ]
                       (lit "contacts.csv")))
              (lit "Email") [] (lit "ops@example.com") []
              [ mkAgent (lit "a1") (lit "General") (lit "{{Subject}}") (lit "Hi") None ]
              payload)
    as (_ & _ & _ & Haccept).
  - reflexivity.
  - apply Haccept in Hparse as [_ Hvalid].
    destruct (Hvalid (mkPrepared (lit "a1") (lit "General")
                        [ mkRecipient (lit "ana@example.com") [] (lit "Hi")
                            (Some [(lit "Email", lit "ana@example.com")]) None ])
                     (mkRecipient (lit "ana@example.com") [] (lit "Hi")
                        (Some [(lit "Email", lit "ana@example.com")]) None))
      as (_ & Hsubject & _).
    + vm_compute. left.
    + left.
    + by apply Hsubject.
Defined.

(** X10. When the sender email of the form does not pass the address check
    (the field left empty, for an address check that refuses the empty
    string), the request [handleSend] posts is answered with status 422
    and nothing is sent, whatever default sender the process has. *)
Theorem form_sender_must_be_valid (isEmail : str -> bool) {T : Type}
    (sendMail : T -> MailOptions -> T * SendOutcome) (env : Env)
    (uploadResult : option UploadResult)
    (emailColumn nameColumn fromEmail fromName : str)
    (definitions : list AgentDefinition) (payload : Payload) (t : T) :
  handleSend uploadResult emailColumn nameColumn fromEmail fromName definitions
    = Post payload ->
  isEmail fromEmail = false ->
  exists violations,
    POST isEmail sendMail env (Some payload) t
    = (invalidPayload violations, ([], t)).
Proof.
  intros (upload & _ & _ & _ & _ & Hfrom)%handleSend_Post Hbad.
  destruct (safeParse isEmail payload) as [|issue more] eqn:Hparse.
  - apply safeParse_nil in Hparse as (_ & _ & Hsender).
    rewrite (Hsender _ fromEmail Hfrom eq_refl) in Hbad. done.
  - exists (issue :: more). by apply POST_invalid.
Qed.

Lemma form_sender_must_be_valid_witness :
  exists violations,
    POST sampleIsEmail alwaysSends
      (mkEnv None None None None (Some (lit "team@example.com")) None)
      (Some (mkPayload
               (preparedAgents (lit "Email") []
                  [ [(lit "Email", lit "ana@example.com")] ]
                  [ mkAgent (lit "a1") (lit "General") (lit "Hello") (lit "Hi") None ])
               (Some (mkFrom (Some []) (Some []))))) 0
    = (invalidPayload violations, ([], 0)).
Proof.
  apply (form_sender_must_be_valid sampleIsEmail alwaysSends _
           (Some (mkUpload [lit "Email"]
                    [ [(lit "Email", lit "ana@example.com")] ]
                    (lit "contacts.csv")))
           (lit "Email") [] [] []
           [ mkAgent (lit "a1") (lit "General") (lit "Hello") (lit "Hi") None ]).
  - reflexivity.
  - reflexivity.
Defined.

(** ** [handleUpload] *)

Section UploadFacts.

Implicit Types (json : list DataRow) (row : DataRow) (columns : list str).

Lemma setAdd_spec columnSet key c :
  c ∈ setAdd columnSet key <-> c ∈ columnSet \/ c = key.
Proof.
  unfold setAdd. case_decide as Hin.
  - split; [by left|]. by intros [?| ->].
  - rewrite elem_of_app, list_elem_of_singleton. done.
Qed.

Lemma setAdd_NoDup columnSet key : NoDup columnSet -> NoDup (setAdd columnSet key).
Proof.
  intros Hnd. unfold setAdd. case_decide as Hin; [done|].
  apply NoDup_app. repeat split; [done| |apply NoDup_singleton].
  intros x Hx ->%list_elem_of_singleton. done.
Qed.

Lemma addKeys_spec row : forall columnSet c,
  c ∈ foldl (fun columnSet kv => setAdd columnSet (JS.trim kv.1)) columnSet row
  <-> c ∈ columnSet \/ exists kv, kv ∈ row /\ c = JS.trim kv.1.
Proof.
  induction row as [|kv row IH]; intros columnSet c; simpl.
  - split; [by left|]. intros [?|(kv & Hkv & _)]; [done|].
    by apply not_elem_of_nil in Hkv.
  - rewrite IH, setAdd_spec. split.
    + intros [[?| ->]|(kv' & Hkv & ->)]; [by left| |].
      * right. exists kv. split; [by left|done].
      * right. exists kv'. split; [by right|done].
    + intros [?|(kv' & Hkv & ->)]; [by left; left|].
      apply elem_of_cons in Hkv as [->|Hkv]; [by left; right|].
      right. by exists kv'.
Qed.

Lemma addKeys_NoDup row : forall columnSet,
  NoDup columnSet ->
  NoDup (foldl (fun columnSet kv => setAdd columnSet (JS.trim kv.1)) columnSet row).
Proof.
  induction row as [|kv row IH]; intros columnSet Hnd; simpl; [done|].
  by apply IH, setAdd_NoDup.
Qed.

Lemma sheetColumns_fold json : forall columnSet,
  NoDup columnSet ->
  let result :=
    foldl (fun columnSet row =>
             foldl (fun columnSet kv => setAdd columnSet (JS.trim kv.1))
                   columnSet row)
          columnSet json in
  NoDup result
  /\ forall c, c ∈ result
       <-> c ∈ columnSet
           \/ exists row kv, row ∈ json /\ kv ∈ row /\ c = JS.trim kv.1.
Proof.
  induction json as [|row json IH]; intros columnSet Hnd; simpl.
  - split; [done|]. intros c. split; [by left|].
    intros [?|(row & kv & Hrow & _)]; [done|].
    by apply not_elem_of_nil in Hrow.
  - destruct (IH _ (addKeys_NoDup row _ Hnd)) as [Hnd' Hin]. split; [done|].
    intros c. rewrite Hin, addKeys_spec. split.
    + intros [[?|(kv & Hkv & ->)]|(row' & kv & Hrow & Hkv & ->)].
      * by left.
      * right. exists row, kv. by repeat split; [left|..].
      * right. exists row', kv. by repeat split; [right|..].
    + intros [?|(row' & kv & Hrow & Hkv & ->)]; [by left; left|].
      apply elem_of_cons in Hrow as [->|Hrow].
      * left; right. by exists kv.
      * right. by exists row', kv.
Qed.

Lemma row_get_None (mapped : DataRow) k :
  row_get mapped k = None <-> k ∉ mapped.*1.
Proof.
  induction mapped as [|[k0 v0] mapped IH]; simpl.
  - split; [intros _; apply not_elem_of_nil | done].
  - rewrite not_elem_of_cons. case_decide; naive_solver.
Qed.

Lemma row_get_snoc (mapped : DataRow) k v k' :
  row_get (mapped ++ [(k, v)]) k'
  = match row_get mapped k' with
    | Some x => Some x
    | None => if decide (k = k') then Some v else None
    end.
Proof.
  induction mapped as [|[k0 v0] mapped IH]; simpl; by repeat case_decide.
Qed.

Lemma row_get_objUpdate (mapped : DataRow) k v k' :
  row_get (objUpdate mapped k v) k'
  = if decide (k' = k) then
      match row_get mapped k with Some _ => Some v | None => None end
    else row_get mapped k'.
Proof.
  induction mapped as [|[k0 v0] mapped IH]; simpl; [by case_decide|].
  destruct (decide (k0 = k)) as [->|Hk]; simpl.
  - repeat case_decide; congruence.
  - rewrite IH. repeat case_decide; congruence.
Qed.

Lemma row_get_objInsertIndex n k v (mapped : DataRow) k' :
  row_get mapped k = None ->
  row_get (objInsertIndex n k v mapped) k'
  = if decide (k' = k) then Some v else row_get mapped k'.
Proof.
  induction mapped as [|[k0 v0] mapped IH]; simpl; intros Hk.
  - repeat case_decide; congruence.
  - destruct (decide (k0 = k)) as [->|Hne]; [done|].
    destruct (arrayIndex k0) as [m|]; [destruct (n <? m)%N|]; simpl.
    + repeat case_decide; congruence.
    + rewrite IH by done. repeat case_decide; congruence.
    + repeat case_decide; congruence.
Qed.

(** An assignment is seen by the next read of the same key, and by no
    other; an assignment to [__proto__] by none. *)
Lemma row_get_objAssign (mapped : DataRow) k v k' :
  k <> lit "__proto__" ->
  row_get (objAssign mapped k v) k'
  = if decide (k' = k) then Some v else row_get mapped k'.
Proof.
  intros Hproto. unfold objAssign. rewrite decide_False by done.
  destruct (row_get mapped k) as [old|] eqn:Hk.
  - by rewrite row_get_objUpdate, Hk.
  - destruct (arrayIndex k) as [n|]; [by apply row_get_objInsertIndex|].
    rewrite row_get_snoc.
    destruct (decide (k' = k)) as [->|Hne].
    + by rewrite Hk, decide_True.
    + rewrite decide_False by done. by destruct (row_get mapped k').
Qed.

Lemma objAssign_proto (mapped : DataRow) v :
  objAssign mapped (lit "__proto__") v = mapped.
Proof. unfold objAssign. by rewrite decide_True. Qed.

Lemma row_get_assign_fold (g : str -> str) columns : forall (mapped : DataRow) c,
  row_get (foldl (fun mapped column => objAssign mapped column (g column))
                 mapped columns) c
  = if decide (c ∈ columns /\ c <> lit "__proto__") then Some (g c)
    else row_get mapped c.
Proof.
  induction columns as [|column columns IH]; intros mapped c; cbn [foldl].
  - rewrite decide_False; [done|]. by intros [?%not_elem_of_nil _].
  - rewrite IH.
    destruct (decide (c ∈ columns /\ c <> lit "__proto__")) as [[Hin Hp]|Hno].
    { rewrite decide_True; [done|]. split; [by right|done]. }
    destruct (decide (column = lit "__proto__")) as [->|Hcp].
    + rewrite objAssign_proto. case_decide as H; [|done].
      destruct H as [[->|Hin]%elem_of_cons Hp]; [done|]. by destruct Hno.
    + rewrite row_get_objAssign by done.
      destruct (decide (c = column)) as [->|Hc].
      * rewrite decide_True; [done|]. split; [by left|done].
      * rewrite decide_False; [done|].
        intros [[->|Hin]%elem_of_cons Hp]; [done|]. by destruct Hno.
Qed.

Lemma objInsertIndex_perm n k v (mapped : DataRow) :
  objInsertIndex n k v mapped ≡ₚ (k, v) :: mapped.
Proof.
  induction mapped as [|[k0 v0] mapped IH]; simpl; [done|].
  destruct (arrayIndex k0) as [m|]; [destruct (n <? m)%N|]; try done.
  rewrite IH. apply perm_swap.
Qed.

Lemma objAssign_perm (mapped : DataRow) column v :
  column <> lit "__proto__" -> column ∉ mapped.*1 ->
  objAssign mapped column v ≡ₚ mapped ++ [(column, v)].
Proof.
  intros Hproto Hk%row_get_None. unfold objAssign.
  rewrite decide_False, Hk by done.
  destruct (arrayIndex column) as [n|]; [|done].
  rewrite objInsertIndex_perm. apply Permutation_cons_append.
Qed.

Lemma objAssign_fresh (mapped : DataRow) column v :
  plainKey column -> column ∉ mapped.*1 ->
  objAssign mapped column v = mapped ++ [(column, v)].
Proof.
  intros [Hindex Hproto] Hk%row_get_None. unfold objAssign.
  by rewrite decide_False, Hk, Hindex.
Qed.

Lemma assign_fold_perm (g : str -> str) columns : forall (mapped : DataRow),
  NoDup (mapped.*1 ++ columns) ->
  foldl (fun mapped column => objAssign mapped column (g column)) mapped columns
  ≡ₚ mapped ++ map (fun column => (column, g column)) (ownColumns columns).
Proof.
  induction columns as [|c columns IH]; intros mapped Hnd; simpl.
  - by rewrite app_nil_r.
  - assert (NoDup (mapped.*1 ++ columns)) as Hnd'.
    { apply NoDup_app in Hnd as (Hm & Hdisj & Hc).
      apply NoDup_cons in Hc as [Hc Hcs].
      apply NoDup_app. repeat split; [done| |done].
      intros x Hx Hx'. apply (Hdisj x Hx). by right. }
    assert (c ∉ mapped.*1) as Hfresh.
    { apply NoDup_app in Hnd as (_ & Hdisj & _).
      intros Hin. apply (Hdisj c Hin). by left. }
    unfold ownColumns. cbn [List.filter]. fold (ownColumns columns).
    case_bool_decide as Hproto; cbn [negb].
    + rewrite Hproto, objAssign_proto. by apply IH.
    + pose proof (objAssign_perm mapped c (g c) Hproto Hfresh) as Hperm.
      rewrite IH.
      * rewrite Hperm, <- app_assoc. done.
      * rewrite Hperm, fmap_app, <- app_assoc. done.
Qed.

Lemma assign_fold (g : str -> str) columns : forall (mapped : DataRow),
  Forall plainKey columns ->
  NoDup (mapped.*1 ++ columns) ->
  foldl (fun mapped column => objAssign mapped column (g column)) mapped columns
  = mapped ++ map (fun column => (column, g column)) columns.
Proof.
  induction columns as [|c columns IH]; intros mapped Hplain Hnd; simpl.
  - by rewrite app_nil_r.
  - apply Forall_cons in Hplain as [Hc' Hplain].
    apply NoDup_app in Hnd as (Hm & Hdisj & Hc).
    apply NoDup_cons in Hc as [Hc Hcs].
    rewrite objAssign_fresh; [|done|].
    + rewrite IH, <- app_assoc; [done|done|].
      rewrite fmap_app. simpl. rewrite <- app_assoc. simpl.
      apply NoDup_app. repeat split; [done| |by constructor].
      intros x Hx Hx'. apply (Hdisj x Hx). done.
    + intros Hin. apply (Hdisj c Hin). by left.
Qed.

Lemma sheetCell_trimmed row c : trimmed (sheetCell row c).
Proof.
  unfold sheetCell. destruct (row_read row c) as [v|]; simpl.
  - apply trim_trimmed.
  - done.
Qed.

(** The cells of the row [handleUpload] builds, when the columns are
    trimmed. *)
Lemma sheetRow_get columns row c :
  (forall c, c ∈ columns -> JS.trim c = c) ->
  row_get (sheetRow columns row) c
  = if decide (c ∈ columns /\ c <> lit "__proto__") then Some (sheetCell row c)
    else None.
Proof.
  intros Htrim. unfold sheetRow.
  rewrite (row_get_assign_fold
             (fun column =>
                normalizeValue
                  (toText <$> match row_read row column with
                              | Some v => Some v
                              | None => row_read row (JS.trim column)
                              end))).
  case_decide as Hc; [|done]. destruct Hc as [Hc _].
  unfold sheetCell. rewrite (Htrim c Hc). by destruct (row_read row c).
Qed.

(** Its keys, when the columns are distinct. *)
Lemma sheetRow_keys columns row :
  NoDup columns -> (sheetRow columns row).*1 ≡ₚ ownColumns columns.
Proof.
  intros Hnd. unfold sheetRow.
  rewrite (assign_fold_perm
             (fun column =>
                normalizeValue
                  (toText <$> match row_read row column with
                              | Some v => Some v
                              | None => row_read row (JS.trim column)
                              end))) by done.
  simpl. rewrite <- list_fmap_compose. by rewrite list_fmap_id.
Qed.

Lemma sheetRow_plain columns row :
  NoDup columns -> Forall plainKey columns ->
  (sheetRow columns row).*1 = columns.
Proof.
  intros Hnd Hplain. unfold sheetRow.
  rewrite (assign_fold
             (fun column =>
                normalizeValue
                  (toText <$> match row_read row column with
                              | Some v => Some v
                              | None => row_read row (JS.trim column)
                              end))) by done.
  simpl. rewrite <- list_fmap_compose. apply list_fmap_id.
Qed.

Lemma elem_of_ownColumns columns c :
  c ∈ ownColumns columns <-> c ∈ columns /\ c <> lit "__proto__".
Proof.
  unfold ownColumns. rewrite !list_elem_of_In, filter_In, negb_true_iff.
  by rewrite bool_decide_eq_false.
Qed.

Lemma sheetColumns_spec json :
  NoDup (sheetColumns json)
  /\ (forall c, c ∈ sheetColumns json
         <-> exists row kv, row ∈ json /\ kv ∈ row /\ c = JS.trim kv.1)
  /\ (forall c, c ∈ sheetColumns json -> JS.trim c = c).
Proof.
  destruct (sheetColumns_fold json [] (NoDup_nil_2)) as [Hnd Hin].
  assert (forall c, c ∈ sheetColumns json
            <-> exists row kv, row ∈ json /\ kv ∈ row /\ c = JS.trim kv.1)
    as Hin'.
  { intros c. unfold sheetColumns. rewrite Hin. split; [|by right].
    intros [?%not_elem_of_nil|?]; done. }
  split; [done|]. split; [done|].
  intros c (row & kv & _ & _ & ->)%Hin'. apply trim_idem.
Qed.

End UploadFacts.

(** X11. On the rows the spreadsheet library returns, [handleUpload]
    reports an error when there are none.  Otherwise the columns of the
    table are the trimmed headers of the sheet, each once; there is one row
    per sheet row, in order; the keys of every row are the columns of the
    table other than [__proto__], each once, and in the order of the
    columns when no column is an array index or [__proto__]; and the cell
    under such a column is the trimmed text of what the sheet row yields
    under that (trimmed) name, or the empty string when it yields
    nothing. *)
Theorem handleUpload_table (uuid fileName : str) (json : list DataRow) :
  (json = [] ->
   handleUpload uuid fileName json
   = UploadFailed (lit "No data detected in the first sheet."))
  /\ (json <> [] ->
      exists upload emailColumn nameColumn agents,
        handleUpload uuid fileName json
        = Uploaded upload emailColumn nameColumn agents
        /\ NoDup (columns upload)
        /\ (forall c, c ∈ columns upload
               <-> exists row kv, row ∈ json /\ kv ∈ row /\ c = JS.trim kv.1)
        /\ length (rows upload) = length json
        /\ forall i raw, json !! i = Some raw ->
             exists row,
               rows upload !! i = Some row
               /\ row.*1 ≡ₚ ownColumns (columns upload)
               /\ (Forall plainKey (columns upload) ->
                   row.*1 = columns upload)
               /\ forall c, c ∈ ownColumns (columns upload) ->
                    row_get row c = Some (sheetCell raw c)
                    /\ trimmed (sheetCell raw c)).
Proof.
  split; [by intros ->|]. intros Hne. unfold handleUpload.
  destruct json as [|raw0 json0] eqn:Hjson; [done|]. rewrite <- Hjson.
  replace (length json =? 0) with false by (by rewrite Hjson).
  destruct (sheetColumns_spec json) as (Hnd & Hin & Htrim).
  eexists _, _, _, _. split; [reflexivity|]. simpl.
  split; [done|]. split; [done|]. split; [by rewrite length_map|].
  intros i raw Hi. exists (sheetRow (sheetColumns json) raw).
  split; [by rewrite list_lookup_fmap, Hi|].
  split; [by apply sheetRow_keys|]. split; [by apply sheetRow_plain|].
  intros c Hc%elem_of_ownColumns. split; [|apply sheetCell_trimmed].
  by rewrite sheetRow_get, decide_True.
Qed.

Lemma handleUpload_table_witness :
  exists upload emailColumn nameColumn agents,
    handleUpload (lit "id-1") (lit "contacts.csv")
      [ [(lit " Name", lit " Ana "); (lit "Email address", lit "ana@example.com ")];
        [(lit "Email address", lit "bob@example.com"); (lit "Team", lit "Sales")] ]
    = Uploaded upload emailColumn nameColumn agents
    /\ columns upload = [lit "Name"; lit "Email address"; lit "Team"]
    /\ emailColumn = lit "Email address" /\ nameColumn = lit "Name".
Proof.
  destruct (handleUpload_table (lit "id-1") (lit "contacts.csv")
      [ [(lit " Name", lit " Ana "); (lit "Email address", lit "ana@example.com ")];
        [(lit "Email address", lit "bob@example.com"); (lit "Team", lit "Sales")] ])
    as [_ Hok].
  destruct Hok as (upload & ec & nc & ags & Heq & _); [discriminate|].
  exists upload, ec, nc, ags. split; [exact Heq|].
  vm_compute in Heq. injection Heq as <- <- <- _. repeat split.
Defined.

(** X12. A header with white space around it loses its column: the table
    gets the trimmed header as a column, but the value is read under the
    trimmed name, so unless the read of that name on the sheet row yields
    something, the cell is empty whatever the sheet holds. *)
Theorem handleUpload_padded_header (uuid fileName : str) (json : list DataRow)
    (i : nat) (raw : DataRow) (header v : str) :
  json !! i = Some raw ->
  (header, v) ∈ raw ->
  row_read raw (JS.trim header) = None ->
  exists upload emailColumn nameColumn agents row,
    handleUpload uuid fileName json
    = Uploaded upload emailColumn nameColumn agents
    /\ JS.trim header ∈ columns upload
    /\ rows upload !! i = Some row
    /\ row_get row (JS.trim header) = Some [].
Proof.
  intros Hi Hkv Hmissing. unfold handleUpload.
  assert (json <> []) as Hne by (intros ->; done).
  replace (length json =? 0) with false by (by destruct json).
  destruct (sheetColumns_spec json) as (Hnd & Hin & Htrim).
  assert (JS.trim header ∈ sheetColumns json) as Hcol.
  { apply Hin. exists raw, (header, v). repeat split; [|done].
    by eapply list_elem_of_lookup_2. }
  assert (JS.trim header <> lit "__proto__") as Hproto.
  { intros Heq. rewrite Heq in Hmissing. unfold row_read in Hmissing.
    destruct (row_get raw _); [done|]. by rewrite decide_True in Hmissing
      by (apply (bool_decide_unpack _); vm_compute; exact I). }
  eexists _, _, _, _, (sheetRow (sheetColumns json) raw).
  split; [reflexivity|]. simpl. split; [done|].
  split; [by rewrite list_lookup_fmap, Hi|].
  rewrite sheetRow_get, decide_True by done.
  unfold sheetCell. by rewrite Hmissing.
Qed.

Lemma handleUpload_padded_header_witness :
  exists upload emailColumn nameColumn agents row,
    handleUpload (lit "id-1") (lit "contacts.csv")
      [ [(lit "Name", lit "Ana"); (lit "Email ", lit "ana@example.com")] ]
    = Uploaded upload emailColumn nameColumn agents
    /\ JS.trim (lit "Email ") ∈ columns upload
    /\ rows upload !! 0 = Some row
    /\ row_get row (JS.trim (lit "Email ")) = Some [].
Proof.
  apply (handleUpload_padded_header (lit "id-1") (lit "contacts.csv")
           [ [(lit "Name", lit "Ana"); (lit "Email ", lit "ana@example.com")] ]
           0 [(lit "Name", lit "Ana"); (lit "Email ", lit "ana@example.com")]
           (lit "Email ") (lit "ana@example.com")).
  - reflexivity.
  - apply list_elem_of_In. simpl. right. left. reflexivity.
  - vm_compute. reflexivity.
Defined.

(** X25. On a row [handleUpload] stored, a call of [applyFilter] whose
    filter has a value and names a column of the table returns, with the
    value of the own-entry reading, when the column is not [__proto__]:
    the row owns the column.  No stored row owns a column [__proto__], and
    the call throws. *)
Theorem stored_row_filter (uuid fileName : str) (json : list DataRow)
    (upload : UploadResult) (emailColumn nameColumn : str)
    (definitions : list AgentDefinition) (row : DataRow) (f : AgentFilter) :
  handleUpload uuid fileName json
  = Uploaded upload emailColumn nameColumn definitions ->
  row ∈ rows upload ->
  column f ∈ columns upload ->
  value f <> [] ->
  (column f <> lit "__proto__" ->
   is_Some (row_get row (column f))
   /\ applyFilterCall row (Some f) = Returns (applyFilter row (Some f)))
  /\ (column f = lit "__proto__" ->
      row_get row (column f) = None
      /\ applyFilterCall row (Some f) = Throws TypeError).
Proof.
  unfold handleUpload. destruct (length json =? 0); [done|].
  intros [= <- _ _ _]. cbn [rows columns].
  intros (raw & -> & Hraw)%list_elem_of_fmap Hcol Hv.
  destruct (sheetColumns_spec json) as (Hnd & Hin & Htrim).
  pose proof (sheetRow_get (sheetColumns json) raw (column f) Htrim) as Hget.
  split.
  - intros Hproto. rewrite decide_True in Hget by done. split; [by eexists|].
    apply applyFilterCall_own. by rewrite Hget.
  - intros Hproto. rewrite decide_False in Hget by (by intros [_ ?]).
    split; [done|]. apply applyFilterCall_inherited; [|done|done|].
    + rewrite Hproto. discriminate.
    + rewrite Hproto. apply (bool_decide_unpack _). vm_compute. exact I.
Qed.

Lemma stored_row_filter_witness :
  applyFilterCall [(lit "Team", lit "Sales")]
    (Some (mkFilter (lit "__proto__") (lit "equals") (lit "x")))
  = Throws TypeError
  /\ applyFilterCall [(lit "Team", lit "Sales")]
       (Some (mkFilter (lit "Team") (lit "equals") (lit "sales")))
     = Returns true.
Proof.
  split.
  - destruct (stored_row_filter (lit "id-1") (lit "contacts.csv")
                [ [(lit " __proto__", lit "x"); (lit "Team", lit " Sales")] ]
                (mkUpload [lit "__proto__"; lit "Team"]
                          [ [(lit "Team", lit "Sales")] ] (lit "contacts.csv"))
                [] [] 
                [ mkAgent (lit "id-1") (lit "General Outreach") DEFAULT_SUBJECT
                          DEFAULT_BODY None ]
                [(lit "Team", lit "Sales")]
                (mkFilter (lit "__proto__") (lit "equals") (lit "x")))
      as [_ Hthrows].
    + vm_compute. reflexivity.
    + apply list_elem_of_In. simpl. left. reflexivity.
    + apply list_elem_of_In. simpl. left. reflexivity.
    + discriminate.
    + apply Hthrows. reflexivity.
  - destruct (stored_row_filter (lit "id-1") (lit "contacts.csv")
                [ [(lit " __proto__", lit "x"); (lit "Team", lit " Sales")] ]
                (mkUpload [lit "__proto__"; lit "Team"]
                          [ [(lit "Team", lit "Sales")] ] (lit "contacts.csv"))
                [] []
                [ mkAgent (lit "id-1") (lit "General Outreach") DEFAULT_SUBJECT
                          DEFAULT_BODY None ]
                [(lit "Team", lit "Sales")]
                (mkFilter (lit "Team") (lit "equals") (lit "sales")))
      as [Hreturns _].
    + vm_compute. reflexivity.
    + apply list_elem_of_In. simpl. left. reflexivity.
    + apply list_elem_of_In. simpl. right. left. reflexivity.
    + discriminate.
    + destruct Hreturns as [_ ->]; [discriminate|]. vm_compute. reflexivity.
Defined.

Section ReachFacts.

Implicit Types (emailColumn nameColumn : str) (agents : list AgentDefinition).

Lemma distinctEmails_reached emailColumn nameColumn rows agents :
  distinctEmails (preparedAgents emailColumn nameColumn rows agents)
  = reached emailColumn nameColumn rows agents.
Proof.
  unfold distinctEmails, reached, preparedAgents.
  induction agents as [|agent agents IH]; [done|].
  transitivity
    (emailsOf (resolveRecipients emailColumn nameColumn rows agent)
     ∪ ⋃ ((fun agent =>
             emailsOf (resolveRecipients emailColumn nameColumn rows agent))
            <$> agents)); [|done].
  rewrite <- IH. cbn [map List.filter recipients].
  destruct (resolveRecipients emailColumn nameColumn rows agent) eqn:Hr;
    cbn [length Nat.eqb negb].
  - unfold emailsOf. simpl. set_solver.
  - done.
Qed.

Lemma totalRecipients_reached upload emailColumn nameColumn agents :
  emailColumn <> [] ->
  totalRecipients (Some upload) emailColumn agents
  = size (reached emailColumn nameColumn (rows upload) agents).
Proof.
  intros Hcol. rewrite (totalRecipients_prepared _ _ nameColumn) by done.
  by rewrite distinctEmails_reached.
Qed.

Lemma reached_app emailColumn nameColumn rows agents1 agents2 :
  reached emailColumn nameColumn rows (agents1 ++ agents2)
  = reached emailColumn nameColumn rows agents1
    ∪ reached emailColumn nameColumn rows agents2.
Proof. unfold reached. by rewrite fmap_app, union_list_app_L. Qed.

Lemma reached_table emailColumn nameColumn rows agents :
  reached emailColumn nameColumn rows agents ⊆ tableEmails emailColumn rows.
Proof.
  intros e. unfold reached, tableEmails. rewrite elem_of_union_list.
  intros (X & (a & -> & Ha)%list_elem_of_fmap & He).
  unfold emailsOf in He. apply elem_of_list_to_set in He.
  apply elem_of_list_to_set. unfold resolveRecipients in He.
  eapply elem_of_sublist; [exact He|].
  rewrite <- (resolve_emails _ nameColumn a).
  apply fmap_sublist, omap_sublist, filter_sublist.
Qed.

Lemma resolve_unfiltered emailColumn nameColumn rows agent :
  filter agent = None ->
  emailsOf (resolveRecipients emailColumn nameColumn rows agent)
  = tableEmails emailColumn rows.
Proof.
  intros Hf. unfold emailsOf, tableEmails, resolveRecipients. rewrite Hf.
  replace (List.filter (fun row => applyFilter row None) rows) with rows.
  - by rewrite resolve_emails.
  - induction rows as [|row rows IH]; simpl; [done|]. by f_equal.
Qed.

(** One agent without a filter reaches the whole table. *)
Lemma reached_unfiltered emailColumn nameColumn rows agents agent :
  agent ∈ agents -> filter agent = None ->
  reached emailColumn nameColumn rows agents = tableEmails emailColumn rows.
Proof.
  intros Hin Hf. apply set_eq. intros e. split; [apply reached_table|].
  intros He. unfold reached. apply elem_of_union_list.
  exists (emailsOf (resolveRecipients emailColumn nameColumn rows agent)).
  split; [|by rewrite resolve_unfiltered].
  apply list_elem_of_fmap. by exists agent.
Qed.

Lemma find_first {A} (p : A -> bool) (pre : list A) (x : A) (post : list A) :
  Forall (fun y => p y = false) pre -> p x = true ->
  List.find p (pre ++ x :: post) = Some x.
Proof.
  induction 1 as [|y pre Hy _ IH]; intros Hx; simpl.
  - by rewrite Hx.
  - rewrite Hy. by apply IH.
Qed.

Lemma find_none {A} (p : A -> bool) (l : list A) :
  Forall (fun y => p y = false) l -> List.find p l = None.
Proof. induction 1 as [|y l Hy _ IH]; simpl; [done|]. by rewrite Hy. Qed.

End ReachFacts.

(** X13. After an upload the email column is the first column whose header
    contains "email" in any letter case, and is left unselected when there
    is none; the only agent is the default one, without a filter, so the
    count shown is the number of distinct non-empty cells of that column,
    and 0 when no column was detected. *)
Theorem handleUpload_detects (uuid fileName : str) (json : list DataRow)
    (upload : UploadResult) (emailColumn nameColumn : str)
    (agents : list AgentDefinition) :
  handleUpload uuid fileName json
    = Uploaded upload emailColumn nameColumn agents ->
  (forall pre c post,
      columns upload = pre ++ c :: post ->
      Forall (fun d => JS.includes (JS.toLowerCase d) (lit "email") = false) pre ->
      JS.includes (JS.toLowerCase c) (lit "email") = true ->
      emailColumn = c)
  /\ (Forall (fun d => JS.includes (JS.toLowerCase d) (lit "email") = false)
             (columns upload) ->
      emailColumn = []
      /\ totalRecipients (Some upload) emailColumn agents = 0)
  /\ agents = [ mkAgent uuid (lit "General Outreach") DEFAULT_SUBJECT
                        DEFAULT_BODY None ]
  /\ (emailColumn <> [] ->
      totalRecipients (Some upload) emailColumn agents
      = size (tableEmails emailColumn (rows upload))).
Proof.
  unfold handleUpload. destruct (length json =? 0); [done|].
  intros Heq.
  assert (upload = mkUpload (sheetColumns json)
                            (map (sheetRow (sheetColumns json)) json) fileName
          /\ emailColumn = findColumn (lit "email") (sheetColumns json)
          /\ agents = [ mkAgent uuid (lit "General Outreach") DEFAULT_SUBJECT
                                DEFAULT_BODY None ]) as (-> & -> & ->).
  { by injection Heq as <- <- <- <-. }
  clear Heq. cbn [columns rows]. split; [|split; [|split]].
  - intros pre c post -> Hpre Hc. unfold findColumn.
    by rewrite (find_first _ _ _ _ Hpre Hc).
  - intros Hnone. unfold findColumn. by rewrite (find_none _ _ Hnone).
  - done.
  - intros Hcol. rewrite (totalRecipients_reached _ _ []) by done.
    f_equal. eapply reached_unfiltered; [by left | done].
Qed.

Lemma handleUpload_detects_witness :
  totalRecipients
    (Some (mkUpload [lit "Name"; lit "E-mail"]
             [ [(lit "Name", lit "Ana"); (lit "E-mail", lit "ana@example.com")] ]
             (lit "contacts.csv")))
    [] [ mkAgent (lit "id-1") (lit "General Outreach") DEFAULT_SUBJECT
                 DEFAULT_BODY None ]
  = 0.
Proof.
  destruct (handleUpload_detects (lit "id-1") (lit "contacts.csv")
              [ [(lit "Name", lit "Ana"); (lit "E-mail", lit "ana@example.com")] ]
              (mkUpload [lit "Name"; lit "E-mail"]
                 [ [(lit "Name", lit "Ana"); (lit "E-mail", lit "ana@example.com")] ]
                 (lit "contacts.csv"))
              [] (lit "Name")
              [ mkAgent (lit "id-1") (lit "General Outreach") DEFAULT_SUBJECT
                        DEFAULT_BODY None ])
    as (_ & Hnone & _).
  - vm_compute. reflexivity.
  - apply Hnone. repeat constructor.
Defined.

(** ** The agent list *)

Section AgentListFacts.

Implicit Types (prev agents : list AgentDefinition) (patch : AgentPatch).

Lemma spread_idem agent patch :
  spread (spread agent patch) patch = spread agent patch.
Proof.
  destruct patch as [[?|] [?|] [?|] [?|] [?|]]; by destruct agent.
Qed.

Lemma resolve_same_fields emailColumn nameColumn rows (a b : AgentDefinition) :
  subjectTemplate a = subjectTemplate b ->
  bodyTemplate a = bodyTemplate b ->
  filter a = filter b ->
  resolveRecipients emailColumn nameColumn rows a
  = resolveRecipients emailColumn nameColumn rows b.
Proof.
  intros Hs Hb Hf. unfold resolveRecipients, prepareRecipient.
  by rewrite Hs, Hb, Hf.
Qed.

Lemma find_agent_Some id agents agent :
  List.find (fun item => bool_decide (agent_id item = id)) agents = Some agent ->
  agent ∈ agents /\ agent_id agent = id.
Proof.
  intros [Hin Hid]%find_some. apply list_elem_of_In in Hin.
  by apply bool_decide_eq_true in Hid.
Qed.

Lemma find_agent_None id agents :
  (forall agent, agent ∈ agents -> agent_id agent <> id) ->
  List.find (fun item => bool_decide (agent_id item = id)) agents = None.
Proof.
  intros Hall. apply find_none, Forall_forall. intros a Ha.
  apply bool_decide_eq_false. by apply Hall.
Qed.

Lemma reached_subseteq emailColumn nameColumn rows agents1 agents2 :
  agents1 ⊆ agents2 ->
  reached emailColumn nameColumn rows agents1
    ⊆ reached emailColumn nameColumn rows agents2.
Proof.
  intros Hsub e. unfold reached. rewrite !elem_of_union_list.
  intros (X & (a & -> & Ha)%list_elem_of_fmap & He).
  eexists. split; [|exact He]. apply list_elem_of_fmap. exists a.
  split; [done|]. by apply Hsub.
Qed.

End AgentListFacts.

(** X14. [handleAgentChange] keeps the length and the order of the list,
    leaves every agent with another id as it is and merges the patch into
    the ones with the id; applying the same patch again changes nothing;
    and a patch that only renames changes no recipient of any agent. *)
Theorem handleAgentChange_effect (id : str) (patch : AgentPatch)
    (prev : list AgentDefinition) :
  length (handleAgentChange id patch prev) = length prev
  /\ (forall i agent, prev !! i = Some agent ->
        handleAgentChange id patch prev !! i
        = Some (if decide (agent_id agent = id) then spread agent patch
                else agent))
  /\ ((forall agent, agent ∈ prev -> agent_id agent <> id) ->
      handleAgentChange id patch prev = prev)
  /\ handleAgentChange id patch (handleAgentChange id patch prev)
     = handleAgentChange id patch prev
  /\ (renameOnly patch ->
      forall emailColumn nameColumn rows,
        map (resolveRecipients emailColumn nameColumn rows)
            (handleAgentChange id patch prev)
        = map (resolveRecipients emailColumn nameColumn rows) prev).
Proof.
  unfold handleAgentChange. split; [apply length_map|]. split; [|split; [|split]].
  - intros i agent Hi.
    change (map ?f prev) with (f <$> prev). by rewrite list_lookup_fmap, Hi.
  - intros Hother. rewrite <- (map_id prev) at 2. apply map_ext_in.
    intros a Ha%list_elem_of_In. by rewrite decide_False by by apply Hother.
  - rewrite map_map. apply map_ext. intros a.
    destruct (decide (agent_id a = id)) as [Ha|Ha].
    + case_decide; [apply spread_idem | done].
    + by rewrite decide_False.
  - intros (Hi & Hs & Hb & Hf) emailColumn nameColumn rows.
    rewrite map_map. apply map_ext. intros a. case_decide; [|done].
    apply resolve_same_fields; unfold spread; simpl; by rewrite ?Hs, ?Hb, ?Hf.
Qed.

Lemma handleAgentChange_effect_witness :
  let agents :=
    [ mkAgent (lit "a1") (lit "First") (lit "Hello {{Name}}") (lit "Hi") None;
      mkAgent (lit "a2") (lit "Second") (lit "News") (lit "Hi") None ] in
  handleAgentChange (lit "a3") (mkPatch None (Some (lit "Renamed")) None None None)
                    agents
  = agents.
Proof.
  intros agents.
  destruct (handleAgentChange_effect (lit "a3")
              (mkPatch None (Some (lit "Renamed")) None None None) agents)
    as (_ & _ & Hnone & _).
  apply Hnone. intros agent Hin. apply list_elem_of_In in Hin.
  destruct Hin as [<-|[<-|[]]]; vm_compute; discriminate.
Defined.

(** X15. [handleCreateAgent] appends one agent and leaves the others where
    they are; the new agent has the given id, the default templates and no
    filter, so once an email column is selected the count is the number of
    distinct non-empty addresses of the whole table. *)
Theorem handleCreateAgent_effect (uuid : str) (prev : list AgentDefinition)
    (upload : UploadResult) (emailColumn : str) :
  handleCreateAgent uuid prev
  = prev ++ [ mkAgent uuid (lit "Agent " ++ showNat (length prev + 1))
                      DEFAULT_SUBJECT DEFAULT_BODY None ]
  /\ (emailColumn <> [] ->
      totalRecipients (Some upload) emailColumn (handleCreateAgent uuid prev)
      = size (tableEmails emailColumn (rows upload))).
Proof.
  split; [reflexivity|]. intros Hcol.
  rewrite (totalRecipients_reached _ _ []) by done.
  f_equal.
  apply (reached_unfiltered _ _ _ _
           (mkAgent uuid (lit "Agent " ++ showNat (length prev + 1))
                    DEFAULT_SUBJECT DEFAULT_BODY None)); [|reflexivity].
  unfold handleCreateAgent. apply elem_of_app. right. by left.
Qed.

Lemma handleCreateAgent_effect_witness :
  totalRecipients
    (Some (mkUpload [lit "Email"; lit "Team"]
             [ [(lit "Email", lit "ana@example.com"); (lit "Team", lit "Sales")];
               [(lit "Email", lit "bob@example.com"); (lit "Team", lit "Ops")] ]
             (lit "contacts.csv")))
    (lit "Email")
    (handleCreateAgent (lit "id-2")
       [ mkAgent (lit "id-1") (lit "Sales only") (lit "Hello") (lit "Hi")
                 (Some (mkFilter (lit "Team") (lit "equals") (lit "sales"))) ])
  = 2.
Proof.
  destruct (handleCreateAgent_effect (lit "id-2")
              [ mkAgent (lit "id-1") (lit "Sales only") (lit "Hello") (lit "Hi")
                        (Some (mkFilter (lit "Team") (lit "equals") (lit "sales"))) ]
              (mkUpload [lit "Email"; lit "Team"]
                 [ [(lit "Email", lit "ana@example.com"); (lit "Team", lit "Sales")];
                   [(lit "Email", lit "bob@example.com"); (lit "Team", lit "Ops")] ]
                 (lit "contacts.csv"))
              (lit "Email"))
    as [_ Hcount].
  rewrite Hcount; [|discriminate]. vm_compute. reflexivity.
Defined.

(** X16. [handleDuplicateAgent] changes nothing when no agent has the id.
    Otherwise it appends a copy of the first agent with that id, under the
    new id; the copy has the same templates and filter, so for every table
    it resolves the same recipients: after duplicating within the current
    list the distinct count is the same, while the request of [handleSend]
    grows by the recipients of the copied agent. *)
Theorem handleDuplicateAgent_effect (uuid id : str)
    (agents prev : list AgentDefinition) :
  ((forall agent, agent ∈ agents -> agent_id agent <> id) ->
   handleDuplicateAgent uuid id agents prev = prev)
  /\ (forall agent,
        List.find (fun item => bool_decide (agent_id item = id)) agents
          = Some agent ->
        exists copy,
          handleDuplicateAgent uuid id agents prev = prev ++ [copy]
          /\ agent_id copy = uuid
          /\ agent_name copy = agent_name agent ++ lit " Copy"
          /\ forall emailColumn nameColumn rows,
               resolveRecipients emailColumn nameColumn rows copy
               = resolveRecipients emailColumn nameColumn rows agent)
  /\ (forall upload emailColumn,
        totalRecipients (Some upload) emailColumn
                        (handleDuplicateAgent uuid id agents agents)
        = totalRecipients (Some upload) emailColumn agents)
  /\ (forall agent emailColumn nameColumn rows,
        List.find (fun item => bool_decide (agent_id item = id)) agents
          = Some agent ->
        length (pairs (preparedAgents emailColumn nameColumn rows
                         (handleDuplicateAgent uuid id agents agents)))
        = length (pairs (preparedAgents emailColumn nameColumn rows agents))
          + length (resolveRecipients emailColumn nameColumn rows agent)).
Proof.
  unfold handleDuplicateAgent. split; [|split; [|split]].
  - intros Hnone. by rewrite find_agent_None.
  - intros agent ->. eexists. split; [reflexivity|]. repeat split.
  - intros upload emailColumn.
    destruct (List.find _ agents) as [agent|] eqn:Hfind; [|done].
    destruct (decide (emailColumn = [])) as [->|Hcol]; [done|].
    rewrite !(totalRecipients_reached _ _ []) by done. f_equal.
    rewrite reached_app. apply find_agent_Some in Hfind as [Hin _].
    assert (reached emailColumn [] (rows upload)
              [ {| agent_id := uuid; agent_name := agent_name agent ++ lit " Copy";
                   subjectTemplate := subjectTemplate agent;
                   bodyTemplate := bodyTemplate agent; filter := filter agent |} ]
            ⊆ reached emailColumn [] (rows upload) agents) as Hsub.
    { unfold reached at 1. rewrite fmap_cons, fmap_nil, union_list_singleton_L.
      intros e He. unfold reached. apply elem_of_union_list.
      eexists. split; [|exact He]. apply list_elem_of_fmap. by exists agent. }
    set_solver.
  - intros agent emailColumn nameColumn rows ->.
    unfold preparedAgents. rewrite map_app, List.filter_app.
    unfold pairs. rewrite flat_map_app, length_app. f_equal.
    set (copy := mkAgent uuid _ _ _ _).
    assert (resolveRecipients emailColumn nameColumn rows copy
            = resolveRecipients emailColumn nameColumn rows agent) as Hsame
      by by apply resolve_same_fields.
    cbn [map List.filter recipients]. rewrite Hsame.
    destruct (resolveRecipients emailColumn nameColumn rows agent) eqn:Hr;
      [done|].
    cbn [length Nat.eqb negb flat_map recipients].
    by rewrite app_nil_r, length_map.
Qed.

Lemma handleDuplicateAgent_effect_witness :
  let agents :=
    [ mkAgent (lit "a1") (lit "First") (lit "Hello {{Name}}") (lit "Hi") None ] in
  handleDuplicateAgent (lit "a9") (lit "missing") agents agents = agents
  /\ length (pairs (preparedAgents (lit "Email") [] 
                      [ [(lit "Email", lit "ana@example.com")] ]
                      (handleDuplicateAgent (lit "a9") (lit "a1") agents agents)))
     = 2.
Proof.
  intros agents.
  destruct (handleDuplicateAgent_effect (lit "a9") (lit "missing") agents agents)
    as (Hmissing & _).
  destruct (handleDuplicateAgent_effect (lit "a9") (lit "a1") agents agents)
    as (_ & _ & _ & Hgrow).
  split.
  - apply Hmissing. intros agent Hin. apply list_elem_of_In in Hin.
    destruct Hin as [<-|[]]. vm_compute. discriminate.
  - rewrite (Hgrow (mkAgent (lit "a1") (lit "First") (lit "Hello {{Name}}")
                            (lit "Hi") None)); [|reflexivity].
    vm_compute. reflexivity.
Defined.

(** X17. [handleRemoveAgent] removes every agent with the id and keeps the
    others in their order; it changes nothing when no agent has the id;
    and it never raises the distinct count. *)
Theorem handleRemoveAgent_effect (id : str) (prev : list AgentDefinition) :
  (forall agent, agent ∈ handleRemoveAgent id prev
                 <-> agent ∈ prev /\ agent_id agent <> id)
  /\ handleRemoveAgent id prev `sublist_of` prev
  /\ ((forall agent, agent ∈ prev -> agent_id agent <> id) ->
      handleRemoveAgent id prev = prev)
  /\ (forall upload emailColumn,
        totalRecipients (Some upload) emailColumn (handleRemoveAgent id prev)
        <= totalRecipients (Some upload) emailColumn prev).
Proof.
  assert (forall agent, agent ∈ handleRemoveAgent id prev
                        <-> agent ∈ prev /\ agent_id agent <> id) as Hin.
  { intros agent. unfold handleRemoveAgent.
    rewrite !list_elem_of_In, filter_In, negb_true_iff, bool_decide_eq_false.
    done. }
  split; [done|]. split; [apply filter_sublist|]. split.
  - intros Hother. unfold handleRemoveAgent.
    induction prev as [|a prev IH]; simpl; [done|].
    rewrite bool_decide_eq_false_2 by (apply Hother; by left). simpl.
    f_equal. apply IH.
    + intros agent. unfold handleRemoveAgent.
      rewrite !list_elem_of_In, filter_In, negb_true_iff, bool_decide_eq_false.
      done.
    + intros agent Hagent. apply Hother. by right.
  - intros upload emailColumn.
    destruct (decide (emailColumn = [])) as [->|Hcol]; [done|].
    rewrite !(totalRecipients_reached _ _ []) by done.
    apply subseteq_size, reached_subseteq. intros a Ha. by apply Hin in Ha as [? _].
Qed.

Lemma handleRemoveAgent_effect_witness :
  let agents :=
    [ mkAgent (lit "a1") (lit "First") (lit "Hello") (lit "Hi") None;
      mkAgent (lit "a2") (lit "Second") (lit "News") (lit "Hi") None ] in
  handleRemoveAgent (lit "a3") agents = agents.
Proof.
  intros agents.
  destruct (handleRemoveAgent_effect (lit "a3") agents) as (_ & _ & Hnone & _).
  apply Hnone. intros agent Hin. apply list_elem_of_In in Hin.
  destruct Hin as [<-|[<-|[]]]; vm_compute; discriminate.
Defined.

(** ** The preview of an agent card *)

Lemma omap_length_le {A B} (g : A -> option B) (l : list A) :
  length (omap g l) <= length l.
Proof.
  induction l as [|x l IH]; [done|]. change (omap g l) with (list_omap _ _ g l) in IH.
  simpl. destruct (g x); simpl; lia.
Qed.

(** X18. The number an agent card shows counts the rows the filter
    matches, which is at least the number of recipients of the agent; the
    card shows the two fixed texts exactly when no row matches, and then
    the agent has no recipient; and when the first matching row has an
    address, the preview is the subject and body of the agent's first
    recipient. *)
Theorem previewOf_first_recipient (emailColumn nameColumn : str)
    (rows : list DataRow) (agent : AgentDefinition) :
  length (resolveRecipients emailColumn nameColumn rows agent)
    <= length (matchingRows rows agent)
  /\ (matchingRows rows agent = [] ->
      previewOf rows agent
      = (lit "No recipients match the current filters.",
         lit "Adjust your filters or templates to preview the email.")
      /\ resolveRecipients emailColumn nameColumn rows agent = [])
  /\ (forall row rest,
        matchingRows rows agent = row :: rest ->
        normalizeValue (row_get row emailColumn) <> [] ->
        exists r rs,
          resolveRecipients emailColumn nameColumn rows agent = r :: rs
          /\ previewOf rows agent = (subject r, body r)).
Proof.
  unfold previewOf, resolveRecipients. fold (matchingRows rows agent).
  split; [apply omap_length_le|]. split.
  - by intros ->.
  - intros row rest -> Hemail. simpl. unfold prepareRecipient at 1.
    apply truthy_nonempty in Hemail. rewrite Hemail. simpl.
    eexists _, _. split; reflexivity.
Qed.

Lemma previewOf_first_recipient_witness :
  previewOf [ [(lit "Name", lit "Ana"); (lit "Team", lit "Ops")];
              [(lit "Name", lit "Bob"); (lit "Team", lit "Sales")] ]
            (mkAgent (lit "a1") (lit "Sales") (lit "Hello {{Name}}") (lit "Hi")
                     (Some (mkFilter (lit "Team") (lit "equals") (lit "HR"))))
  = (lit "No recipients match the current filters.",
     lit "Adjust your filters or templates to preview the email.").
Proof.
  destruct (previewOf_first_recipient (lit "Email") []
              [ [(lit "Name", lit "Ana"); (lit "Team", lit "Ops")];
                [(lit "Name", lit "Bob"); (lit "Team", lit "Sales")] ]
              (mkAgent (lit "a1") (lit "Sales") (lit "Hello {{Name}}") (lit "Hi")
                       (Some (mkFilter (lit "Team") (lit "equals") (lit "HR")))))
    as (_ & Hnone & _).
  apply Hnone. vm_compute. reflexivity.
Defined.

(** ** [buildHtmlBody] *)

Section HtmlFacts.

Lemma replaceChar_other (c : ascii) (by_ : str) (x : ascii) :
  x <> c -> replaceChar c by_ [x] = [x].
Proof. intros Hx. unfold replaceChar. simpl. by rewrite decide_False. Qed.

Lemma escape_passes (c : ascii) :
  replaceChar newline (lit "<br/>")
    (replaceChar ">"%char (lit "&gt;")
       (replaceChar "<"%char (lit "&lt;")
          (replaceChar "&"%char (lit "&amp;") [c])))
  = escapeChar c.
Proof.
  unfold escapeChar, newline in *. repeat case_decide; subst; try reflexivity.
  by rewrite !replaceChar_other.
Qed.

Lemma escapeChar_inj (a b : ascii) (ra rb : str) :
  escapeChar a ++ ra = escapeChar b ++ rb -> a = b /\ ra = rb.
Proof.
  unfold escapeChar, newline. repeat case_decide; subst; simpl;
    intros Heq; try discriminate Heq;
    injection Heq; intros; subst; try done; congruence.
Qed.

Lemma escape_inj (a : str) : forall b,
  flat_map escapeChar a = flat_map escapeChar b -> a = b.
Proof.
  assert (forall c r, escapeChar c ++ r <> []) as Hne.
  { intros c r. unfold escapeChar. by repeat case_decide. }
  induction a as [|c a IH]; intros [|d b]; simpl; intros H.
  - done.
  - symmetry in H. by apply Hne in H.
  - by apply Hne in H.
  - apply escapeChar_inj in H as [-> H]. f_equal. by apply IH.
Qed.

Lemma replaceChar_app (c : ascii) (by_ s1 s2 : str) :
  replaceChar c by_ (s1 ++ s2) = replaceChar c by_ s1 ++ replaceChar c by_ s2.
Proof. apply flat_map_app. Qed.

Lemma escape_body (plainText : str) :
  replaceChar newline (lit "<br/>")
    (replaceChar ">"%char (lit "&gt;")
       (replaceChar "<"%char (lit "&lt;")
          (replaceChar "&"%char (lit "&amp;") plainText)))
  = flat_map escapeChar plainText.
Proof.
  induction plainText as [|c text IH]; [done|].
  change (c :: text) with ([c] ++ text).
  rewrite !replaceChar_app, IH, escape_passes. done.
Qed.

Lemma buildHtmlBody_escape (plainText : str) :
  buildHtmlBody plainText
  = htmlOpen ++ flat_map escapeChar plainText ++ htmlClose.
Proof.
  unfold buildHtmlBody, htmlOpen, htmlClose. rewrite escape_body.
  by rewrite <- !app_assoc.
Qed.

End HtmlFacts.

(** X19. The four replacements of [buildHtmlBody] act as one pass over the
    body: every character is replaced once, an ampersand, a less-than or a
    greater-than sign by its entity and a line feed by a line break, and
    nothing that a replacement has written is replaced again.  Two bodies
    with the same HTML body are the same. *)
Theorem buildHtmlBody_one_pass (plainText other : str) :
  buildHtmlBody plainText
  = htmlOpen ++ flat_map escapeChar plainText ++ htmlClose
  /\ (buildHtmlBody plainText = buildHtmlBody other -> plainText = other).
Proof.
  split; [apply buildHtmlBody_escape|].
  rewrite !buildHtmlBody_escape. intros H%app_inv_head%app_inv_tail.
  by apply escape_inj.
Qed.

Lemma buildHtmlBody_one_pass_witness :
  lit "a &" ++ lit "amp; b" = lit "a &amp; b".
Proof.
  apply (buildHtmlBody_one_pass (lit "a &" ++ lit "amp; b") (lit "a &amp; b")).
  vm_compute. reflexivity.
Defined.

(** ** [resolveFromHeader] *)

Lemma or_else_unset (o : option str) (d : str) :
  JS.or_else o d = [] <-> unset o /\ d = [].
Proof.
  unfold unset. destruct o as [[|c s]|]; simpl; split; try done.
  - intros ->. split; [by right|done].
  - by intros [_ ->].
  - by intros [[?|?] _].
  - intros ->. split; [by left|done].
  - by intros [_ ->].
Qed.

Lemma or_else_set (o : option str) (d s : str) :
  o = Some s -> s <> [] -> JS.or_else o d = s.
Proof. intros -> Hs. by destruct s. Qed.

Lemma or_else_skip (o : option str) (d : str) :
  unset o -> JS.or_else o d = d.
Proof. by intros [->| ->]. Qed.

(** X20. [resolveFromHeader] gives no header exactly when the request
    email and the variables MAIL_FROM, SMTP_FROM and SMTP_USER are all
    missing or empty.  The display name falls back to MAIL_FROM itself:
    with MAIL_FROM set and no name in the request, in MAIL_FROM_NAME or in
    SMTP_FROM_NAME, the header shows the MAIL_FROM address as the name, in
    front of the request email when there is one and in front of itself
    otherwise. *)
Theorem resolveFromHeader_sources (env : Env) (sender : FromField) :
  (resolveFromHeader env sender = None
   <-> unset (email sender) /\ unset (MAIL_FROM env)
       /\ unset (SMTP_FROM env) /\ unset (SMTP_USER env))
  /\ (forall address,
        MAIL_FROM env = Some address -> address <> [] ->
        unset (fname sender) -> unset (MAIL_FROM_NAME env) ->
        unset (SMTP_FROM_NAME env) ->
        (unset (email sender) ->
         resolveFromHeader env sender
         = Some (address ++ lit " <" ++ address ++ lit ">"))
        /\ (forall requested,
              email sender = Some requested -> requested <> [] ->
              resolveFromHeader env sender
              = Some (address ++ lit " <" ++ requested ++ lit ">"))).
Proof.
  split.
  - unfold resolveFromHeader.
    destruct (JS.or_else (email sender) (defaultEmail env)) as [|c e] eqn:He.
    + split; [intros _|done]. apply or_else_unset in He as [H1 He].
      unfold defaultEmail in He.
      apply or_else_unset in He as [H2 He]. apply or_else_unset in He as [H3 He].
      by apply or_else_unset in He as [H4 _].
    + simpl. split; [by destruct (JS.truthy _)|]. intros (H1 & H2 & H3 & H4).
      assert (JS.or_else (email sender) (defaultEmail env) = []) as Hnil.
      { apply or_else_unset. split; [done|]. unfold defaultEmail.
        by repeat (apply or_else_unset; split; [done|]). }
      congruence.
  - intros address Hmail Hne Hname Hmfn Hsfn.
    assert (defaultName env = address) as Hdn.
    { unfold defaultName. rewrite !or_else_skip by done.
      by apply or_else_set. }
    assert (defaultEmail env = address) as Hde.
    { unfold defaultEmail. by apply or_else_set. }
    unfold resolveFromHeader. rewrite (or_else_skip (fname sender)) by done.
    rewrite Hdn, Hde. split.
    + intros Hemail. rewrite or_else_skip by done.
      destruct address; [done|]. done.
    + intros requested Hreq Hrne. rewrite (or_else_set _ _ _ Hreq Hrne).
      destruct requested; [done|]. by destruct address.
Qed.

Lemma resolveFromHeader_sources_witness :
  resolveFromHeader
    (mkEnv None None None None (Some (lit "team@example.com")) None)
    (mkFrom (Some (lit "ops@example.com")) (Some []))
  = Some (lit "team@example.com <ops@example.com>").
Proof.
  destruct (resolveFromHeader_sources
              (mkEnv None None None None (Some (lit "team@example.com")) None)
              (mkFrom (Some (lit "ops@example.com")) (Some [])))
    as [_ Hname].
  destruct (Hname (lit "team@example.com")) as [_ Hreq];
    [reflexivity | discriminate | by right | by left | by left |].
  apply (Hreq (lit "ops@example.com")); [reflexivity | discriminate].
Defined.

(** ** [POST] as a whole *)

Section PostFacts.

Variable isEmail : str -> bool.
Context {T : Type}.
Variable sendMail : T -> MailOptions -> T * SendOutcome.

Lemma flatSend_prefix h ps : forall sentSoFar t,
  exists done_,
    (flatSend sendMail h ps (sentSoFar, t)).2.1 = sentSoFar ++ done_
    /\ done_ `prefix_of` mails h ps.
Proof.
  induction ps as [|p ps IH]; intros sentSoFar t; simpl.
  - exists []. by rewrite app_nil_r.
  - destruct (sendMail t _) as [t' []].
    + destruct (IH (sentSoFar ++ [mailFor h p.1 p.2]) t') as (d & Heq & Hpre).
      exists (mailFor h p.1 p.2 :: d). split.
      * by rewrite Heq, <- app_assoc.
      * by apply prefix_cons.
    + exists [mailFor h p.1 p.2]. split; [done|].
      apply prefix_cons, prefix_nil.
Qed.

Lemma flatSend_None h ps : forall w w',
  flatSend sendMail h ps w = (None, w') ->
  allSent sendMail (mails h ps) w.2 = Some w'.2.
Proof.
  induction ps as [|p ps IH]; intros w w'; simpl.
  - by intros [= <-].
  - destruct (sendMail w.2 _) as [t' []]; [|done]. intros H.
    by apply IH in H.
Qed.

Lemma flatSend_Some h ps : forall w failedTo w',
  flatSend sendMail h ps w = (Some failedTo, w') ->
  allSent sendMail (mails h ps) w.2 = None.
Proof.
  induction ps as [|p ps IH]; intros w failedTo w'; simpl; [done|].
  destruct (sendMail w.2 _) as [t' []]; [|done]. intros H.
  by apply IH in H.
Qed.

(** The five ways [POST] ends. *)
Lemma POST_cases env json t :
  (json = None /\ POST isEmail sendMail env json t = (malformedJson, ([], t)))
  \/ (exists data issue more,
        json = Some data /\ safeParse isEmail data = issue :: more
        /\ POST isEmail sendMail env json t
           = (invalidPayload (issue :: more), ([], t)))
  \/ (exists data,
        json = Some data /\ safeParse isEmail data = []
        /\ resolveFromHeader env (default (mkFrom None None) (from data)) = None
        /\ POST isEmail sendMail env json t = (missingSender, ([], t)))
  \/ (exists data h failedTo w,
        json = Some data /\ safeParse isEmail data = []
        /\ resolveFromHeader env (default (mkFrom None None) (from data))
           = Some h
        /\ flatSend sendMail h (pairs (agents data)) ([], t)
           = (Some failedTo, w)
        /\ POST isEmail sendMail env json t = (dispatchFailed failedTo, w))
  \/ (exists data h w,
        json = Some data /\ safeParse isEmail data = []
        /\ resolveFromHeader env (default (mkFrom None None) (from data))
           = Some h
        /\ flatSend sendMail h (pairs (agents data)) ([], t) = (None, w)
        /\ POST isEmail sendMail env json t
           = (dispatched (dryRun env) (length (pairs (agents data)))
                         (length (agents data)), w)).
Proof.
  destruct json as [data|]; [|by left].
  destruct (safeParse isEmail data) as [|issue more] eqn:Hparse.
  - destruct (resolveFromHeader env (default (mkFrom None None) (from data)))
      as [h|] eqn:Hfrom.
    + rewrite (POST_dispatch _ _ _ _ _ _ Hparse Hfrom).
      destruct (flatSend sendMail h (pairs (agents data)) ([], t))
        as [[failedTo|] w] eqn:Hsend.
      * do 3 right. left. by exists data, h, failedTo, w.
      * do 4 right. exists data, h, w. rewrite total_is_pair_count. done.
    + do 2 right. left. exists data. repeat split; try done.
      unfold POST. by rewrite Hparse, Hfrom.
  - right. left. exists data, issue, more. repeat split; try done.
    by apply POST_invalid.
Qed.

End PostFacts.

(** X21. Whatever the request, the environment and the transport, the
    messages [POST] hands to the transport are an initial part of the
    messages of the request in its order (agents in order, recipients in
    order within each agent): it never sends a message the request does not
    ask for, never sends one twice and never skips one to send a later
    one.  Without a parsed body nothing is sent and the transport is left
    as it was. *)
Theorem POST_sends_in_order (isEmail : str -> bool) {T : Type}
    (sendMail : T -> MailOptions -> T * SendOutcome)
    (env : Env) (data : Payload) (t : T) :
  (POST isEmail sendMail env None t).2 = ([], t)
  /\ exists fromHeader,
      (POST isEmail sendMail env (Some data) t).2.1
        `prefix_of` mails fromHeader (pairs (agents data))
      /\ length (POST isEmail sendMail env (Some data) t).2.1
         <= length (pairs (agents data)).
Proof.
  split; [done|].
  assert (exists fromHeader,
            (POST isEmail sendMail env (Some data) t).2.1
              `prefix_of` mails fromHeader (pairs (agents data))) as [h Hpre].
  { destruct (POST_cases isEmail sendMail env (Some data) t)
      as [[? _]|[(d & ? & ? & _ & _ & ->)|[(d & _ & _ & _ & ->)
         |[(d & h & f & w & [= <-] & _ & _ & Hsend & ->)
          |(d & h & w & [= <-] & _ & _ & Hsend & ->)]]]];
      [done | exists []; apply prefix_nil | exists []; apply prefix_nil | |].
    - exists h. destruct (flatSend_prefix sendMail h (pairs (agents data)) [] t)
        as (d' & Heq & Hpre). rewrite Hsend in Heq. simpl in *. by subst.
    - exists h. destruct (flatSend_prefix sendMail h (pairs (agents data)) [] t)
        as (d' & Heq & Hpre). rewrite Hsend in Heq. simpl in *. by subst. }
  exists h. split; [done|].
  apply prefix_length in Hpre. unfold mails in Hpre.
  by rewrite length_map in Hpre.
Qed.

(** X22. [POST] answers [ok: true] exactly when the body was parsed, the
    payload has no violation, a sender could be resolved and the transport
    accepted every message of the request; the status is then 200 and in
    every other case 400, 422 or 500. *)
Theorem POST_ok_iff (isEmail : str -> bool) {T : Type}
    (sendMail : T -> MailOptions -> T * SendOutcome)
    (env : Env) (json : option Payload) (t : T) :
  (ok (POST isEmail sendMail env json t).1 = true
   <-> exists data fromHeader t',
         json = Some data /\ safeParse isEmail data = []
         /\ resolveFromHeader env (default (mkFrom None None) (from data))
            = Some fromHeader
         /\ allSent sendMail (mails fromHeader (pairs (agents data))) t
            = Some t')
  /\ (ok (POST isEmail sendMail env json t).1 = true ->
      status (POST isEmail sendMail env json t).1 = 200)
  /\ (ok (POST isEmail sendMail env json t).1 = false ->
      status (POST isEmail sendMail env json t).1 ∈ [400; 422; 500]).
Proof.
  destruct (POST_cases isEmail sendMail env json t)
    as [[-> ->]|[(d & i & m & -> & Hp & ->)|[(d & -> & Hp & Hf & ->)
       |[(d & h & f & w & -> & Hp & Hf & Hsend & ->)
        |(d & h & w & -> & Hp & Hf & Hsend & ->)]]]]; simpl.
  - split; [split; [done|by intros (? & ? & ? & ? & _)]|].
    split; [done|]. intros _. set_solver.
  - split; [split; [done|]|].
    + intros (? & ? & ? & [= <-] & Hp' & _). congruence.
    + split; [done|]. intros _. set_solver.
  - split; [split; [done|]|].
    + intros (? & ? & ? & [= <-] & _ & Hf' & _). congruence.
    + split; [done|]. intros _. set_solver.
  - split; [split; [done|]|].
    + intros (? & ? & ? & [= <-] & _ & Hf' & Hsent).
      rewrite Hf in Hf'. injection Hf' as <-.
      apply flatSend_Some in Hsend. simpl in Hsend. congruence.
    + split; [done|]. intros _. set_solver.
  - split; [split; [intros _|done]|by split].
    apply flatSend_None in Hsend. by exists d, h, w.2.
Qed.

Lemma POST_ok_iff_witness :
  status (POST sampleIsEmail (failsOn (lit "bob@example.com"))
            (mkEnv None (Some (lit "sender@example.com")) None None None None)
            (Some (mkPayload
                     [ mkPrepared (lit "a") (lit "A")
                         [ mkRecipient (lit "bob@example.com") (lit "Hello")
                                       (lit "Hi") None None ] ]
                     None)) 0).1
  ∈ [400; 422; 500].
Proof.
  apply (POST_ok_iff sampleIsEmail (failsOn (lit "bob@example.com"))).
  vm_compute. reflexivity.
Defined.

(** X23. A successful answer says "Dry run" exactly when SMTP_HOST is
    missing or empty; with a host it says "Dispatched". *)
Theorem POST_dry_run_text (isEmail : str -> bool) {T : Type}
    (sendMail : T -> MailOptions -> T * SendOutcome)
    (env : Env) (json : option Payload) (t : T) :
  ok (POST isEmail sendMail env json t).1 = true ->
  (JS.startsWith (message (POST isEmail sendMail env json t).1) (lit "Dry run")
     = true <-> unset (SMTP_HOST env))
  /\ (JS.startsWith (message (POST isEmail sendMail env json t).1)
                    (lit "Dispatched") = true
      <-> ~ unset (SMTP_HOST env)).
Proof.
  destruct (POST_cases isEmail sendMail env json t)
    as [[-> ->]|[(d & i & m & -> & Hp & ->)|[(d & -> & Hp & Hf & ->)
       |[(d & h & f & w & -> & Hp & Hf & Hsend & ->)
        |(d & h & w & -> & Hp & Hf & Hsend & ->)]]]]; simpl; try done.
  intros _. unfold dryRun, unset.
  destruct (SMTP_HOST env) as [[|c host]|]; simpl; naive_solver.
Qed.

Lemma POST_dry_run_text_witness :
  JS.startsWith
    (message (POST sampleIsEmail alwaysSends
                (mkEnv (Some (lit "smtp.example.com"))
                       (Some (lit "sender@example.com")) None None None None)
                (Some (mkPayload
                         [ mkPrepared (lit "a") (lit "A")
                             [ mkRecipient (lit "bob@example.com") (lit "Hello")
                                           (lit "Hi") None None ] ]
                         None)) 0).1)
    (lit "Dispatched") = true.
Proof.
  apply (POST_dry_run_text sampleIsEmail alwaysSends).
  - vm_compute. reflexivity.
  - intros [H|H]; discriminate H.
Defined.

(** ** Spelling of a placeholder *)

Section SpellingFacts.

Implicit Types (row : DataRow) (pre post : str).

Lemma starts_with_token_brace s :
  starts_with_token s -> exists r, s = "{"%char :: r.
Proof. intros (body & post & _ & ->). by eexists. Qed.

(** Text without an opening brace is copied. *)
Lemma renderTemplate_plain_prefix row pre s :
  "{"%char ∉ pre ->
  renderTemplate (pre ++ s) row = pre ++ renderTemplate s row.
Proof.
  induction pre as [|c pre IH]; [done|].
  intros [Hc Hpre]%not_elem_of_cons. rewrite <- !app_comm_cons.
  rewrite renderTemplate_copy, IH; [done|done|].
  destruct (tokenExec (c :: pre ++ s)) as [[g r]|] eqn:He; [|done].
  apply tokenExec_Some, starts_with_token_brace in He as [r' [= ->]]. done.
Qed.

Lemma renderTemplate_token row body post :
  isKeyText body ->
  renderTemplate (token body ++ post) row
  = match row_read row (JS.trim body) with
    | Some direct => toText direct
    | None => default [] (ci_lookup row (JS.toLowerCase (JS.trim body)))
    end ++ renderTemplate post row.
Proof.
  intros Hbody. destruct (tokenExec_token body post Hbody) as (g & Hexec & Htrim).
  rewrite (renderTemplate_match _ _ _ _ Hexec). f_equal.
  unfold replacer. rewrite Htrim, loweredMap_lookup.
  destruct (row_read row (JS.trim body)); [done|]. by destruct (ci_lookup _ _).
Qed.

End SpellingFacts.

(** X24. After text without an opening brace, two placeholders whose keys
    differ only in letter case and in the white space around them render
    alike whenever the read of neither trimmed key on the row yields
    anything: the column is then found without regard to case. *)
Theorem renderTemplate_key_spelling (row : DataRow) (pre body1 body2 post : str) :
  "{"%char ∉ pre ->
  isKeyText body1 -> isKeyText body2 ->
  JS.toLowerCase (JS.trim body1) = JS.toLowerCase (JS.trim body2) ->
  row_read row (JS.trim body1) = None ->
  row_read row (JS.trim body2) = None ->
  renderTemplate (pre ++ token body1 ++ post) row
  = renderTemplate (pre ++ token body2 ++ post) row.
Proof.
  intros Hpre H1 H2 Hlow Hn1 Hn2.
  rewrite (renderTemplate_plain_prefix _ pre (token body1 ++ post)) by done.
  rewrite (renderTemplate_plain_prefix _ pre (token body2 ++ post)) by done.
  rewrite (renderTemplate_token _ body1), (renderTemplate_token _ body2) by done.
  by rewrite Hn1, Hn2, Hlow.
Qed.

Lemma renderTemplate_key_spelling_witness :
  renderTemplate (lit "Dear {{ FIRST name }},") [(lit "First Name", lit "Ana")]
  = renderTemplate (lit "Dear {{first Name}},") [(lit "First Name", lit "Ana")].
Proof.
  apply (renderTemplate_key_spelling [(lit "First Name", lit "Ana")]
           (lit "Dear ") (lit " FIRST name ") (lit "first Name") (lit ","));
    try (vm_compute; reflexivity).
  - apply (bool_decide_unpack _). vm_compute. exact I.
  - split; [discriminate | apply (bool_decide_unpack _); vm_compute; exact I].
  - split; [discriminate | apply (bool_decide_unpack _); vm_compute; exact I].
Defined.

(** ** The examples of the specification, run on the embedding *)

Example render_case_insensitive_fallback :
  renderTemplate (lit "Hi {{first name}}") [(lit "First Name", lit "Ana")]
  = lit "Hi Ana".
Proof. vm_compute. reflexivity. Qed.

Example render_unresolved_token :
  renderTemplate (lit "{{Missing}}") [(lit "Other", lit "x")] = [].
Proof. vm_compute. reflexivity. Qed.

Example render_inherited_names :
  renderTemplate (lit "{{constructor}}|{{ toString }}|{{__proto__}}|{{Constructor}}|")
                 [(lit "Other", lit "x")]
  = lit "function Object() { [native code] }|function toString() { [native code] }|[object Object]||".
Proof. vm_compute. reflexivity. Qed.

Example render_own_entry_before_inherited :
  renderTemplate (lit "{{constructor}}") [(lit "constructor", lit "Acme Build")]
  = lit "Acme Build".
Proof. vm_compute. reflexivity. Qed.

Example render_exact_key_first :
  renderTemplate (lit "{{ name }}/{{NAME}}/{{Name}}")
                 [(lit "Name", lit "first"); (lit "NAME", lit "second")]
  = lit "second/second/first".
Proof. vm_compute. reflexivity. Qed.

Example render_scans_from_the_left :
  renderTemplate (lit "a{{   }}b{{ x y  }}{{}}{{{q}}")
                 [(lit "x y", lit "V"); (lit "", lit "E")]
  = lit "aEbV{{}}".
Proof. vm_compute. reflexivity. Qed.

Example filter_operator_examples :
  let row := [(lit "Company", lit "Acme Corp")] in
  applyFilter row (Some (mkFilter (lit "Company") (lit "contains") (lit "acme"))) = true
  /\ applyFilter row (Some (mkFilter (lit "Company") (lit "equals") (lit "Acme Corp"))) = true
  /\ applyFilter row (Some (mkFilter (lit "Company") (lit "startsWith") (lit "Beta"))) = false
  /\ applyFilter row (Some (mkFilter (lit "Company") (lit "endsWith") (lit "CORP"))) = true
  /\ applyFilter row (Some (mkFilter (lit "") (lit "equals") (lit "x"))) = true.
Proof. vm_compute. repeat split. Qed.

Example filter_call_examples :
  let row := [(lit "Company", lit "Acme Corp")] in
  applyFilterCall row (Some (mkFilter (lit "Company") (lit "contains") (lit "acme")))
  = Returns true
  /\ applyFilterCall row (Some (mkFilter (lit "Town") (lit "contains") (lit "acme")))
     = Returns false
  /\ applyFilterCall row (Some (mkFilter (lit "valueOf") (lit "contains") (lit "acme")))
     = Throws TypeError
  /\ applyFilterCall row (Some (mkFilter (lit "valueOf") (lit "matches") (lit "acme")))
     = Throws TypeError
  /\ applyFilterCall row (Some (mkFilter (lit "valueOf") (lit "contains") (lit "")))
     = Returns true.
Proof. vm_compute. repeat split. Qed.

Example upload_key_order :
  sheetRow [lit "Name"; lit "7"; lit "__proto__"; lit "2"; lit "07"; lit "toString"]
           [(lit "Name", lit " Ana "); (lit "7", lit "seven"); (lit "2", lit "two")]
  = [ (lit "2", lit "two"); (lit "7", lit "seven"); (lit "Name", lit "Ana");
      (lit "07", lit ""); (lit "toString", lit "function toString() { [native code] }") ].
Proof. vm_compute. reflexivity. Qed.

Example from_header_examples :
  resolveFromHeader (mkEnv None None None None (Some (lit "team@example.com")) None)
                    (mkFrom None None)
  = Some (lit "team@example.com <team@example.com>")
  /\ resolveFromHeader (mkEnv None (Some (lit "user@example.com")) None None None None)
                       (mkFrom (Some (lit "ops@example.com")) (Some (lit "Ops")))
     = Some (lit "Ops <ops@example.com>")
  /\ resolveFromHeader (mkEnv None None None None None (Some (lit "Team")))
                       (mkFrom (Some []) None)
     = None.
Proof. vm_compute. repeat split. Qed.

Example html_body_example :
  buildHtmlBody (lit "a<b") 
  = lit "<div style=" ++ [dquote]
      ++ lit "font-family: 'Segoe UI', Arial, sans-serif; font-size: 16px; line-height: 1.6; color: #0f172a;"
      ++ [dquote] ++ lit ">" ++ [newline] ++ lit "a&lt;b" ++ [newline]
      ++ lit "</div>".
Proof. vm_compute. reflexivity. Qed.

Example dry_run_summary :
  let payload :=
    mkPayload [ mkPrepared (lit "a") (lit "A")
                  [ mkRecipient (lit "ana@example.com") (lit "Hello") (lit "Hi")
                                None (Some (lit "Ana")) ] ]
              (Some (mkFrom (Some (lit "ops@example.com")) None)) in
  (POST sampleIsEmail alwaysSends (mkEnv None None None None None None)
        (Some payload) 0).1
  = {| status := 200; ok := true;
       message := lit "Dry run: generated 1 email payloads across 1 agents. Configure SMTP_HOST to send live emails.";
       issues := None |}
  /\ (POST sampleIsEmail alwaysSends
            (mkEnv (Some (lit "smtp.example.com")) None None None None None)
            (Some payload) 0).1
     = {| status := 200; ok := true;
          message := lit "Dispatched 1 emails across 1 agents.";
          issues := None |}
  /\ map mail_to (POST sampleIsEmail alwaysSends
                       (mkEnv None None None None None None) (Some payload) 0).2.1
     = [lit "Ana <ana@example.com>"].
Proof. vm_compute. repeat split. Qed.

Example empty_sender_from_the_form :
  match handleSend
          (Some (mkUpload [lit "Email"] [ [(lit "Email", lit "ana@example.com")] ]
                          (lit "contacts.csv")))
          (lit "Email") [] [] []
          [ mkAgent (lit "a1") (lit "General") (lit "Hello") (lit "Hi") None ]
  with
  | Post payload =>
      status (POST sampleIsEmail alwaysSends
                (mkEnv None None None None (Some (lit "team@example.com")) None)
                (Some payload) 0).1
  | _ => 0
  end = 422.
Proof. vm_compute. reflexivity. Qed.
